(** * RT-WMNSIM: the mesh-network simulation core of [app.py]

    A shallow embedding of the simulation core of the Streamlit script
    (node generation, selfish assignment, link construction, routing and
    the single packet send), followed by the properties of that core.

    Conventions.
    - Python integers are [Z]; dictionaries are [gmap]s; the module-level
      globals [nodes] and [G] together with the state of the [random]
      module form the record [World], threaded through a state-and-exception
      monad [M].
    - A [gmap] keeps no insertion order: a loop over a dictionary runs over
      [map_to_list].  No property below depends on the order of the keys.
    - [random] is an injected source: an infinite sequence of raw integers
      read one at a time.  Every library generator is a function of the raw
      value, so a statement quantified over the source holds for every
      outcome of the draws.
    - The floating-point numbers of the script are the distance
      [math.dist(..)] between two integer points, the quotient
      [num_nodes * selfish_ratio / 100], and the drop roll
      [random.random()].  Each is represented exactly: a distance by its
      integer radicand, the quotient by integer truncation, the roll by its
      53-bit numerator.  Sums of distances are only ever compared, by the
      router; that order is a parameter [cost_lt] of the routing functions.
    - [networkx] and [random] are libraries outside the script.  [add_edge]
      follows the adjacency dictionaries of [nx.Graph]; [shortest_path] and
      [sample] follow the documented behaviour of the library functions. *)

From Stdlib Require Import ZArith Lia Reals Lra String QArith.
From stdpp Require Import base option list gmap fin_maps fin_sets sorting.

Local Open Scope Z_scope.

(** ** Distances *)

(** [math.dist(p, q)] for integer points is the square root of an integer.
    [Sqrt r] stands for that root; its real value is [toR]. *)
Inductive distance := Sqrt (radicand : Z).

Definition radicand (d : distance) : Z := let 'Sqrt r := d in r.

Definition toR (d : distance) : R := sqrt (IZR (radicand d)).

Global Instance distance_eq_dec : EqDecision distance.
Proof. solve_decision. Defined.

(** [math.dist((x1, y1), (x2, y2))] *)
Definition dist (p q : Z * Z) : distance :=
  Sqrt ((p.1 - q.1) * (p.1 - q.1) + (p.2 - q.2) * (p.2 - q.2)).

(** [d <= r] for an integer [r]: the root of [n] is at most [r] exactly when
    [r] is non-negative and [n <= r * r]. *)
Definition dist_le (d : distance) (r : Z) : bool :=
  (0 <=? r) && (radicand d <=? r * r).

(** [int(d / 3)]: the integer part of a third of the root. *)
Definition int_div3 (d : distance) : Z := Z.sqrt (radicand d) / 3.

(** ** Nodes *)

(** The per-node dictionary [{"x", "y", "power", "trust", "selfish"}]. *)
Record Node := mkNode {
  x : Z;
  y : Z;
  power : Z;
  trust : Z;
  selfish : bool
}.

Definition set_selfish (b : bool) (n : Node) : Node :=
  mkNode (x n) (y n) (power n) (trust n) b.
Definition set_trust (t : Z) (n : Node) : Node :=
  mkNode (x n) (y n) (power n) t (selfish n).
Definition set_power (p : Z) (n : Node) : Node :=
  mkNode (x n) (y n) p (trust n) (selfish n).

(** ** The graph [G = nx.Graph()] *)

(** The attribute dictionary of an edge: [weight] and [capacity]. *)
Record EdgeAttr := mkEdge {
  weight : distance;
  capacity : Z
}.

Global Instance EdgeAttr_eq_dec : EqDecision EdgeAttr.
Proof. solve_decision. Defined.

(** networkx keeps an undirected graph as a dictionary of adjacency
    dictionaries; a node is in the graph when it is a key of the outer one. *)
Abbreviation Graph := (gmap Z (gmap Z EdgeAttr)).

Definition adj (g : Graph) (u : Z) : gmap Z EdgeAttr := default ∅ (g !! u).

(** [G.add_edge(u, v, **attr)]: both end points become nodes, and the
    attribute dictionary is stored under [adj[u][v]] and [adj[v][u]]. *)
Definition add_edge (u v : Z) (a : EdgeAttr) (g : Graph) : Graph :=
  let g1 := <[u := adj g u]> g in
  let g2 := <[v := adj g1 v]> g1 in
  let g3 := <[u := <[v := a]> (adj g2 u)]> g2 in
  <[v := <[u := a]> (adj g3 v)]> g3.

(** [G[u][v]] when the edge is there. *)
Definition edge (g : Graph) (u v : Z) : option EdgeAttr := g !! u ≫= (.!! v).

(** The undirected edge between [u] and [v] is in the graph. *)
Definition has_edge (g : Graph) (u v : Z) : Prop :=
  is_Some (edge g u v) ∧ edge g u v = edge g v u.

(** Keys of a dictionary, in the iteration order of the finite map. *)
Definition keys {A} (m : gmap Z A) : list Z := (map_to_list m).*1.

(** ** The random source *)

Record RandomSource := mkRandom {
  raw : nat → Z;
  pos : nat
}.

(** ** The world and the monad *)

Record World := mkWorld {
  nodes : gmap Z Node;
  G : Graph;
  random : RandomSource
}.

Definition with_nodes (m : gmap Z Node) (w : World) : World :=
  mkWorld m (G w) (random w).
Definition with_G (g : Graph) (w : World) : World :=
  mkWorld (nodes w) g (random w).
Definition with_random (r : RandomSource) (w : World) : World :=
  mkWorld (nodes w) (G w) r.

(** Exceptions that the modelled code can raise. *)
Inductive exn := ValueError | KeyError | NodeNotFound | NetworkXNoPath.

Definition M (A : Type) : Type := World → exn + (A * World).

Global Instance M_ret : MRet M := λ A a w, inr (a, w).
Global Instance M_bind : MBind M := λ A B k m w,
  match m w with
  | inl e => inl e
  | inr (a, w') => k a w'
  end.
Definition raise {A} (e : exn) : M A := λ _, inl e.

(** The next raw value of the source. *)
Definition draw : M Z :=
  λ w, let r := random w in
       inr (raw r (pos r), with_random (mkRandom (raw r) (S (pos r))) w).

(** [random.randint(a, b)]: an integer of [[a, b]]; an empty range raises. *)
Definition randint (a b : Z) : M Z :=
  if b <? a then raise ValueError
  else (r ← draw; mret (a + r mod (b - a + 1))).

(** [random.random()] is [k / 2^53] for a 53-bit [k]; this is [k]. *)
Definition random_random : M Z := r ← draw; mret (r mod 2 ^ 53).

(** The double nearest to [0.6] is [5404319552844595 / 2^53], so
    [random.random() < 0.6] compares numerators. *)
Definition lt_0_6 (k : Z) : bool := k <? 5404319552844595.

(** [nodes[i]] read; a missing key raises. *)
Definition node_at (i : Z) : M Node :=
  λ w, match nodes w !! i with
       | Some n => inr (n, w)
       | None => inl KeyError
       end.

(** [nodes[i] = n] *)
Definition put_node (i : Z) (n : Node) : M unit :=
  λ w, inr (tt, with_nodes (<[i := n]> (nodes w)) w).

(** [nodes[i][field] = ..]: an update of the dictionary stored under [i]. *)
Definition update_node (i : Z) (f : Node → Node) : M unit :=
  n ← node_at i; put_node i (f n).

(** [range(n)] *)
Definition range (n : Z) : list Z := seqZ 0 n.

(** ** Node generation (lines 34-41) *)

Fixpoint generate_nodes (ids : list Z) : M unit :=
  match ids with
  | [] => mret tt
  | i :: rest =>
      vx ← randint 0 800;
      vy ← randint 0 500;
      vp ← randint 70 100;
      put_node i (mkNode vx vy vp 100 false);;
      generate_nodes rest
  end.

(** ** Selfish assignment (lines 44-47) *)

(** [random.sample(population, k)]: [k] items at distinct positions of the
    population, by the pool algorithm of the library: each pick takes a
    position of the remaining pool and moves the last remaining item into
    the vacancy.  A count that is negative or exceeds the population raises
    [ValueError]. *)
Fixpoint sample_pool (pool : list Z) (k : nat) : M (list Z) :=
  match k with
  | O => mret []
  | S k' =>
      j ← randint 0 (Z.of_nat (length pool) - 1);
      match pool !! Z.to_nat j, last pool with
      | Some picked, Some moved =>
          rest ← sample_pool (take (length pool - 1) (<[Z.to_nat j := moved]> pool)) k';
          mret (picked :: rest)
      | _, _ => raise ValueError
      end
  end.

Definition sample (population : list Z) (k : Z) : M (list Z) :=
  if (0 <=? k) && (k <=? Z.of_nat (length population))
  then sample_pool population (Z.to_nat k)
  else raise ValueError.

(** [int(a / 100)]: true division followed by truncation towards zero. *)
Definition int_div100 (a : Z) : Z := a ÷ 100.

Fixpoint mark_selfish (selfish_nodes : list Z) : M unit :=
  match selfish_nodes with
  | [] => mret tt
  | sn :: rest =>
      update_node sn (set_selfish true);;
      t ← randint 20 60;
      update_node sn (set_trust t);;
      mark_selfish rest
  end.

Definition assign_selfish (num_nodes selfish_ratio : Z) : M (list Z) :=
  λ w, (selfish_nodes ← sample (keys (nodes w)) (int_div100 (num_nodes * selfish_ratio));
        mark_selfish selfish_nodes;;
        mret selfish_nodes) w.

(** ** Link construction (lines 52-62) *)

Definition link_capacity (d : distance) (multi_radio multi_channel : bool) : Z :=
  let capacity := Z.max 1 (100 - int_div3 d) in
  let capacity := if multi_radio then capacity + 20 else capacity in
  if multi_channel then capacity + 15 else capacity.

(** The body of the inner loop for the pair [(i, j)]. *)
Definition link (tx_range : Z) (multi_radio multi_channel : bool)
    (i : Z) (ni : Node) (j : Z) (nj : Node) (g : Graph) : Graph :=
  if decide (i ≠ j) then
    let d := dist (x ni, y ni) (x nj, y nj) in
    if dist_le d tx_range
    then add_edge i j (mkEdge d (link_capacity d multi_radio multi_channel)) g
    else g
  else g.

(** The two nested loops over the items [ns] of [nodes]. *)
Definition link_all (tx_range : Z) (multi_radio multi_channel : bool)
    (ns : list (Z * Node)) (g : Graph) : Graph :=
  foldl (λ g1 '(i, ni),
           foldl (λ g2 '(j, nj), link tx_range multi_radio multi_channel i ni j nj g2)
                 g1 ns)
        g ns.

Definition build_links (tx_range : Z) (multi_radio multi_channel : bool) : M unit :=
  λ w, inr (tt, with_G (link_all tx_range multi_radio multi_channel
                                 (map_to_list (nodes w)) (G w)) w).

(** ** Routing (lines 67-72) *)

(** The weights met along [p]. *)
Fixpoint path_weights (g : Graph) (p : list Z) : list distance :=
  match p with
  | u :: (v :: _) as rest =>
      match edge g u v with
      | Some a => weight a :: path_weights g rest
      | None => path_weights g rest
      end
  | _ => []
  end.

(** All walks from [u] to [dst] that repeat no node and avoid [seen]. *)
Fixpoint simple_paths (fuel : nat) (g : Graph) (seen : list Z) (u dst : Z)
    : list (list Z) :=
  if decide (u = dst) then [[u]]
  else match fuel with
       | O => []
       | S fuel' =>
           v ← keys (adj g u);
           if decide (v ∈ u :: seen) then []
           else (u ::.) <$> simple_paths fuel' g (u :: seen) v dst
       end.

(** ** Settings and outcome of a run *)

(** The settings of the side bar (lines 21-26). *)
Record Config := mkConfig {
  num_nodes : Z;
  tx_range : Z;
  selfish_ratio : Z;
  mobility : bool;
  multi_radio : bool;
  multi_channel : bool
}.

(** What the run hands to the display: end points, route and status; the
    node mapping and the graph are those of the final world. *)
Record Outcome := mkOutcome {
  src : Z;
  dst : Z;
  path : option (list Z);
  status : string
}.

Section Routing.
(** The order of the float totals of two weight sequences: [cost_lt ws1 ws2]
    when the sum of [ws1] is less than the sum of [ws2]. *)
Variable cost_lt : list distance → list distance → bool.

(** The first of the cheapest candidates. *)
Definition cheapest (g : Graph) (p : list Z) (ps : list (list Z)) : list Z :=
  foldl (λ best q,
           if cost_lt (path_weights g q) (path_weights g best) then q else best)
        p ps.

(** [nx.shortest_path(G, src, dst, weight="weight")]: a path from [src] to
    [dst] of least total weight, here the first cheapest of the walks that
    repeat no node (a walk of [size g] nodes or fewer); [NodeNotFound] when
    an end point is not a node of the graph, [NetworkXNoPath] when no walk
    joins them. *)
Definition shortest_path (g : Graph) (src dst : Z) : exn + list Z :=
  if decide (src ∈ dom g ∧ dst ∈ dom g) then
    match simple_paths (size g) g [] src dst with
    | [] => inl NetworkXNoPath
    | p :: ps => inr (cheapest g p ps)
    end
  else inl NodeNotFound.

(** [find_route]: the bare [except] turns every exception into [None]. *)
Definition find_route (src dst : Z) : M (option (list Z)) :=
  λ w, match shortest_path (G w) src dst with
       | inr path => inr (Some path, w)
       | inl _ => inr (None, w)
       end.

(** ** Packet delivery (lines 77-90) *)

(** The body of the loop for one [hop]; the result is [true] when the body
    ends with the [return] of the drop branch. *)
Definition visit (hop : Z) : M bool :=
  n ← node_at hop;
  dropped ← (if selfish n then
               roll ← random_random;
               if lt_0_6 roll then
                 update_node hop (λ m, set_trust (trust m - 5) m);;
                 mret true
               else mret false
             else mret false);
  if (dropped : bool) then mret true
  else
    m ← node_at hop;
    d ← randint 1 5;
    put_node hop (set_power (power m - d) m);;
    mret false.

(** The loop over the hops, left at the first drop. *)
Fixpoint walk (hops : list Z) : M bool :=
  match hops with
  | [] => mret false
  | hop :: rest =>
      dropped ← visit hop;
      if (dropped : bool) then mret true else walk rest
  end.

Definition send_packet (src dst : Z) : M (option (list Z) * string) :=
  path ← find_route src dst;
  match path with
  | None | Some [] => mret (None, "No Path Found"%string)
  | Some hops =>
      dropped ← walk hops;
      if (dropped : bool) then mret (Some hops, "Dropped by selfish node"%string)
      else mret (Some hops, "Delivered"%string)
  end.

(** ** The run (lines 31-97) *)

Definition simulate (c : Config) : M Outcome :=
  generate_nodes (range (num_nodes c));;
  assign_selfish (num_nodes c) (selfish_ratio c);;
  build_links (tx_range c) (multi_radio c) (multi_channel c);;
  s ← randint 0 (num_nodes c - 1);
  t ← randint 0 (num_nodes c - 1);
  r ← send_packet s t;
  mret (mkOutcome s t r.1 r.2).

Definition run (c : Config) (rng : RandomSource) : exn + (Outcome * World) :=
  simulate c (mkWorld ∅ ∅ rng).
End Routing.

(** A computable stand-in for the order of float totals: each root in fixed
    point with 52 fractional bits. *)
Definition fixed_cost (ws : list distance) : Z :=
  foldr (λ d acc, Z.sqrt (radicand d * 2 ^ 104) + acc) 0 ws.
Definition fixed_cost_lt (ws1 ws2 : list distance) : bool :=
  fixed_cost ws1 <? fixed_cost ws2.

(** A source that replays a list of raw values and then yields zeros. *)
Definition replay (l : list Z) : RandomSource :=
  mkRandom (λ i, nth i l 0) 0.

(** ** What the page shows (lines 112-114 and 136-142) *)

(** [G.edges()]: every node in turn, with those of its neighbours that were
    not themselves reported as a node before. *)
Fixpoint edges_from (g : Graph) (seen ks : list Z) : list (Z * Z) :=
  match ks with
  | [] => []
  | n :: rest =>
      ((n,.) <$> filter (λ nbr, nbr ∉ seen) (keys (adj g n)))
        ++ edges_from g (n :: seen) rest
  end.

Definition edges (g : Graph) : list (Z * Z) := edges_from g [] (keys g).

(** [sum(..)] of a list of integers. *)
Definition total (l : list Z) : Z := foldl Z.add 0 l.

(** [len(G.edges())]: half the sum over the nodes of the number of
    neighbours, a self-loop counting twice. *)
Definition number_of_edges (g : Graph) : Z :=
  total ((λ n, Z.of_nat (size (adj g n))
               + (if decide (is_Some (adj g n !! n)) then 1 else 0)) <$> keys g) / 2.

(** [[n for n in nodes if nodes[n]["selfish"]]] *)
Definition selfish_list (m : gmap Z Node) : list Z :=
  filter (λ n, selfish <$> m !! n = Some true) (keys m).

(** [t / num_nodes], the true division of two integers, as the exact
    quotient; [None] stands for [ZeroDivisionError]. *)
Definition average (t num_nodes : Z) : option Q :=
  if decide (num_nodes = 0) then None
  else Some (inject_Z t / inject_Z num_nodes)%Q.

(** [sum([nodes[i]["power"] for i in nodes]) / num_nodes] and the same for
    the trust. *)
Definition average_power (m : gmap Z Node) (num_nodes : Z) : option Q :=
  average (total ((λ kv, power kv.2) <$> map_to_list m)) num_nodes.

Definition average_trust (m : gmap Z Node) (num_nodes : Z) : option Q :=
  average (total ((λ kv, trust kv.2) <$> map_to_list m)) num_nodes.

(** * Vocabulary of the statements *)

(** [v] is a neighbour of [u]. *)
Definition adjacent (g : Graph) (u v : Z) : Prop := is_Some (edge g u v).

(** [p] walks along edges of [g]. *)
Fixpoint chain (g : Graph) (p : list Z) : Prop :=
  match p with
  | u :: (v :: _) as rest => adjacent g u v ∧ chain g rest
  | _ => True
  end.

(** [p] is a walk from [u] to [v]. *)
Definition walk_from_to (g : Graph) (u v : Z) (p : list Z) : Prop :=
  head p = Some u ∧ last p = Some v ∧ chain g p.

(** [u] and [v] are joined by a walk over nodes of the graph. *)
Definition connected (g : Graph) (u v : Z) : Prop :=
  u ∈ dom g ∧ v ∈ dom g ∧ rtc (adjacent g) u v.

(** Every node of the graph has an incident edge: nodes enter the graph only
    through [add_edge]. *)
Definition no_isolated (g : Graph) : Prop :=
  ∀ u, u ∈ dom g → ∃ v, adjacent g u v.

(** The attributes that the loop body computes for two nodes in range. *)
Definition link_attr (tx_range : Z) (mr mc : bool) (ni nj : Node) : option EdgeAttr :=
  let d := dist (x ni, y ni) (x nj, y nj) in
  if dist_le d tx_range then Some (mkEdge d (link_capacity d mr mc)) else None.

(** The link that the node mapping [m] calls for between [i] and [j]. *)
Definition wanted (m : gmap Z Node) (tx_range : Z) (mr mc : bool) (i j : Z)
    : option EdgeAttr :=
  if decide (i ≠ j) then
    ni ← m !! i; nj ← m !! j; link_attr tx_range mr mc ni nj
  else None.

(** The loop body on a pair of items of [nodes]. *)
Definition link_step (tx : Z) (mr mc : bool)
    (g : Graph) (p : (Z * Node) * (Z * Node)) : Graph :=
  link tx mr mc p.1.1 p.1.2 p.2.1 p.2.2 g.

(** The pair [(a, b)] is met by the loops, in either order. *)
Definition met (ps : list ((Z * Node) * (Z * Node))) (a b : Z) : Prop :=
  ∃ na nb, ((a, na), (b, nb)) ∈ ps ∨ ((b, nb), (a, na)) ∈ ps.

(** The Euclidean distance between the positions of two nodes, as a real. *)
Definition euclid (ni nj : Node) : R :=
  sqrt ((IZR (x ni) - IZR (x nj))² + (IZR (y ni) - IZR (y nj))²).

(** A world with two nodes a hundred units apart and no link yet. *)
Definition two_nodes : World :=
  mkWorld (<[0 := mkNode 0 0 90 100 false]> (<[1 := mkNode 100 0 80 100 true]> ∅))
          ∅ (replay [3; 4; 5]).

(** The raw value [k] places ahead in the source of [w]. *)
Definition raw_at (w : World) (k : nat) : Z :=
  raw (random w) (k + pos (random w)).

(** The world after [k] raw values were read. *)
Definition advance (k : nat) (w : World) : World :=
  with_random (mkRandom (raw (random w)) (k + pos (random w))) w.

(** The amount by which a hop that forwards the packet lowers its power,
    read [k] places ahead in the source. *)
Definition decay (w : World) (k : nat) : Z := 1 + raw_at w k mod 5.

(** The drop roll of a selfish hop is below [0.6]. *)
Definition rolls_drop (w : World) : bool := lt_0_6 (raw_at w 0 mod 2 ^ 53).

(** What a hop can do to the world: the graph and the sequence of raw values
    stay, the source moves on, and only the node [hop] changes, in [power]
    or [trust] alone and never upwards. *)
Definition touched (hop : Z) (w w' : World) : Prop :=
  G w' = G w ∧ raw (random w') = raw (random w) ∧
  (pos (random w) ≤ pos (random w'))%nat ∧
  ∃ n n', nodes w !! hop = Some n ∧ nodes w' = <[hop := n']> (nodes w) ∧
          x n' = x n ∧ y n' = y n ∧ selfish n' = selfish n ∧
          power n' ≤ power n ∧ trust n' ≤ trust n.

(** What the loop over [hops] can do to the world: as [touched], for the
    nodes of [hops] only. *)
Definition framed (hops : list Z) (w w' : World) : Prop :=
  G w' = G w ∧ raw (random w') = raw (random w) ∧
  (pos (random w) ≤ pos (random w'))%nat ∧
  (∀ i, nodes w !! i = None → nodes w' !! i = None) ∧
  ∀ i n, nodes w !! i = Some n →
         ∃ n', nodes w' !! i = Some n' ∧
               x n' = x n ∧ y n' = y n ∧ selfish n' = selfish n ∧
               power n' ≤ power n ∧ trust n' ≤ trust n ∧
               (i ∉ hops → n' = n).

(** Six nodes: the line 0 - 1 - 2 with the selfish node 1 in the middle, the
    pair 3 - 4 far from the line, and node 5 out of range of all others. *)
Definition line_nodes : gmap Z Node :=
  <[0 := mkNode 0 0 90 100 false]>
  (<[1 := mkNode 100 0 80 40 true]>
  (<[2 := mkNode 200 0 70 100 false]>
  (<[3 := mkNode 700 400 95 100 false]>
  (<[4 := mkNode 700 450 85 100 false]>
  (<[5 := mkNode 400 200 75 100 false]> ∅))))).

Definition line_world (draws : list Z) : World :=
  mkWorld line_nodes (link_all 150 false false (map_to_list line_nodes) ∅)
          (replay draws).

(** Two settings that agree on everything but the mobility flag. *)
Definition same_but_mobility (c1 c2 : Config) : Prop :=
  num_nodes c1 = num_nodes c2 ∧ tx_range c1 = tx_range c2 ∧
  selfish_ratio c1 = selfish_ratio c2 ∧
  multi_radio c1 = multi_radio c2 ∧ multi_channel c1 = multi_channel c2.

(** The number of selfish nodes of a mapping. *)
Definition count_selfish (m : gmap Z Node) : nat :=
  size (filter (λ kv, selfish kv.2 = true) m).

(** [round(a / b)] of Python for a positive [b]: the nearest integer, a tie
    going to the even neighbour. *)
Definition round_div (a b : Z) : Z :=
  let q := a / b in
  let rem := a mod b in
  if 2 * rem <? b then q
  else if b <? 2 * rem then q + 1
  else if Z.even q then q else q + 1.

(** The line world with the raw values [7; 0; 3]: the send from 0 to 2 lowers
    the power of node 0 by [1 + 7 mod 5 = 3], then node 1 rolls [0] and
    drops. *)
Definition line_start : World := line_world [7; 0; 3].

Definition line_after_0 : World :=
  advance 1 (with_nodes (<[0 := mkNode 0 0 87 100 false]> line_nodes) line_start).

Definition line_dropped : World :=
  advance 1 (with_nodes (<[1 := mkNode 100 0 80 35 true]> (nodes line_after_0))
                        line_after_0).

(** The world before the script runs, with a fixed sequence of raw values. *)
Definition fresh : World :=
  mkWorld ∅ ∅ (replay [3; 4; 5; 700; 300; 20; 100; 100; 5; 150; 150; 6;
                        200; 200; 7; 1; 2; 3; 4; 5; 6; 7; 8; 9; 10]).

(** The world after five nodes were generated from [fresh]. *)
Definition gen5 : World :=
  advance 15
    (with_nodes (<[0 := mkNode 3 4 75 100 false]>
                (<[1 := mkNode 700 300 90 100 false]>
                (<[2 := mkNode 100 100 75 100 false]>
                (<[3 := mkNode 150 150 76 100 false]>
                (<[4 := mkNode 200 200 77 100 false]> ∅))))) fresh).

(** The line world before the links are built. *)
Definition line_bare : World := mkWorld line_nodes ∅ (replay [7; 0; 3]).

(** What the flags add to the capacity of a link. *)
Definition bonus (mr mc : bool) : Z :=
  (if mr then 20 else 0) + (if mc then 15 else 0).

(** The total of a cost per link over the weights of a walk. *)
Definition total_cost (c : distance → Z) (ws : list distance) : Z :=
  foldr (λ d acc, c d + acc) 0 ws.

(** The line world with node 1 removed from [nodes] after the links were
    built, and that world after the send from 0 to 2 has passed node 0. *)
Definition line_lost : World := with_nodes (delete 1 line_nodes) line_start.

Definition line_lost_after_0 : World :=
  advance 1 (with_nodes (<[0 := mkNode 0 0 87 100 false]> (delete 1 line_nodes))
                        line_lost).

(** The line world with raw values for which the selfish node 1 rolls above
    the threshold: the send from 0 to 2 is delivered. *)
Definition line_lucky : World := line_world [7; 5404319552844595; 3; 9].

Definition line_delivered : World :=
  advance 4
    (with_nodes (<[0 := mkNode 0 0 87 100 false]>
                (<[1 := mkNode 100 0 76 40 true]>
                (<[2 := mkNode 200 0 65 100 false]> line_nodes))) line_lucky).

(** * Properties *)

(** ** Distances and their real values *)

Lemma dist_radicand_nonneg p q : 0 ≤ radicand (dist p q).
Proof.
  unfold dist; simpl.
  pose proof (Z.square_nonneg (p.1 - q.1)).
  pose proof (Z.square_nonneg (p.2 - q.2)). lia.
Qed.

Lemma dist_sym p q : dist p q = dist q p.
Proof. unfold dist. f_equal. ring. Qed.

Lemma toR_nonneg d : (0 <= toR d)%R.
Proof. apply sqrt_pos. Qed.

Lemma sqrt_IZR_square (r : Z) : 0 ≤ r → sqrt (IZR (r * r)) = IZR r.
Proof.
  intros Hr. rewrite mult_IZR. apply sqrt_square. now apply IZR_le.
Qed.

(** The test [dist <= tx_range] of the script is the comparison of the real
    distance with the range. *)
Lemma dist_le_real d r :
  0 ≤ radicand d → dist_le d r = true ↔ (toR d <= IZR r)%R.
Proof.
  intros Hd. unfold dist_le, toR.
  rewrite andb_true_iff, Z.leb_le, Z.leb_le. split.
  - intros [Hr Hle]. rewrite <- (sqrt_IZR_square r Hr).
    apply sqrt_le_1_alt. now apply IZR_le.
  - intros Hle.
    assert (Hr : 0 ≤ r).
    { apply le_IZR. eapply Rle_trans; [apply sqrt_pos | exact Hle]. }
    split; [exact Hr|].
    apply le_IZR. rewrite <- (sqrt_IZR_square r Hr) in Hle.
    apply sqrt_le_0 in Hle; [exact Hle | now apply IZR_le | apply IZR_le; nia].
Qed.

(** [int(dist / 3)] is the floor of a third of the real distance. *)
Lemma int_div3_real d :
  0 ≤ radicand d → int_div3 d = Zfloor (toR d / 3).
Proof.
  intros Hd. symmetry. apply Zfloor_eq. unfold int_div3, toR.
  set (n := radicand d) in *. set (s := Z.sqrt n). set (k := s / 3).
  pose proof (Z.sqrt_spec n Hd) as [Hlo Hhi]. fold s in Hlo, Hhi.
  assert (Hs : 0 ≤ s) by apply Z.sqrt_nonneg.
  assert (Hk : 3 * k ≤ s < 3 * k + 3).
  { unfold k. pose proof (Z.div_mod s 3 ltac:(lia)).
    pose proof (Z.mod_pos_bound s 3 ltac:(lia)). lia. }
  assert (H1 : (IZR (3 * k) <= sqrt (IZR n))%R).
  { rewrite <- (sqrt_IZR_square (3 * k)) by lia.
    apply sqrt_le_1_alt, IZR_le.
    transitivity (s * s); [apply Z.square_le_mono_nonneg; lia | exact Hlo]. }
  assert (H2 : (sqrt (IZR n) < IZR (3 * k + 3))%R).
  { rewrite <- (sqrt_IZR_square (3 * k + 3)) by lia.
    apply sqrt_lt_1_alt. split; [now apply IZR_le | apply IZR_lt].
    eapply Z.lt_le_trans; [exact Hhi|].
    change (Z.succ s * Z.succ s ≤ (3 * k + 3) * (3 * k + 3)).
    apply Z.square_le_mono_nonneg; lia. }
  rewrite mult_IZR in H1. rewrite plus_IZR, mult_IZR in H2. lra.
Qed.

Lemma link_capacity_pos d mr mc : 1 ≤ link_capacity d mr mc.
Proof. unfold link_capacity. destruct mr, mc; lia. Qed.

Lemma link_capacity_eq d mr mc :
  link_capacity d mr mc =
  Z.max 1 (100 - int_div3 d) + (if mr then 20 else 0) + (if mc then 15 else 0).
Proof. unfold link_capacity. destruct mr, mc; lia. Qed.

(** ** The graph *)

Lemma lookup_add_edge u v a g i :
  add_edge u v a g !! i =
  if decide (i = v) then
    Some (<[u := a]> (if decide (u = v) then <[v := a]> (adj g v) else adj g v))
  else if decide (i = u) then Some (<[v := a]> (adj g u))
  else g !! i.
Proof.
  unfold add_edge, adj.
  repeat case_decide; subst;
    repeat (rewrite ?lookup_insert_eq, ?lookup_insert_ne by congruence; simpl);
    try done.
Qed.

Lemma edge_add_edge u v a g i j :
  edge (add_edge u v a g) i j =
  if decide ((i = u ∧ j = v) ∨ (i = v ∧ j = u)) then Some a else edge g i j.
Proof.
  unfold edge. rewrite lookup_add_edge. unfold adj.
  destruct (decide (i = v)) as [->|Hiv]; simpl.
  - destruct (decide (j = u)) as [->|Hju].
    + rewrite lookup_insert_eq. rewrite decide_True; [done | tauto].
    + rewrite lookup_insert_ne by done.
      destruct (decide (u = v)) as [->|Huv].
      * rewrite lookup_insert_ne by done.
        rewrite decide_False by (intros [[? ?]|[? ?]]; congruence). by destruct (g !! v).
      * rewrite decide_False by (intros [[? ?]|[? ?]]; congruence). by destruct (g !! v).
  - destruct (decide (i = u)) as [->|Hiu]; simpl.
    + destruct (decide (j = v)) as [->|Hjv].
      * rewrite lookup_insert_eq. rewrite decide_True; [done | tauto].
      * rewrite lookup_insert_ne by done.
        rewrite decide_False by (intros [[? ?]|[? ?]]; congruence). by destruct (g !! u).
    + rewrite decide_False by (intros [[? ?]|[? ?]]; congruence). done.
Qed.

Lemma dom_add_edge u v a g : dom (add_edge u v a g) = {[u; v]} ∪ dom g.
Proof.
  apply set_eq. intros i. rewrite elem_of_dom, lookup_add_edge.
  rewrite elem_of_union, elem_of_union, !elem_of_singleton, elem_of_dom.
  repeat case_decide; subst; intuition (eauto; congruence).
Qed.

Lemma adjacent_dom_l g u v : adjacent g u v → u ∈ dom g.
Proof.
  unfold adjacent, edge. intros [a Ha]. apply elem_of_dom.
  destruct (g !! u); [eauto | discriminate].
Qed.

Lemma adjacent_keys g u v : v ∈ keys (adj g u) ↔ adjacent g u v.
Proof.
  unfold keys, adjacent, edge, adj. rewrite list_elem_of_fmap. split.
  - intros [[v' a] [-> Hin]]. apply elem_of_map_to_list in Hin. simpl.
    destruct (g !! u); simpl in *; [eauto | by rewrite lookup_empty in Hin].
  - intros [a Ha]. exists (v, a). split; [done|].
    apply elem_of_map_to_list. destruct (g !! u); simpl in *; [done | discriminate].
Qed.

Lemma no_isolated_empty : no_isolated ∅.
Proof. intros u Hu. rewrite dom_empty_L in Hu. by apply not_elem_of_empty in Hu. Qed.

Lemma no_isolated_add_edge u v a g :
  no_isolated g → no_isolated (add_edge u v a g).
Proof.
  intros Hg i Hi. rewrite dom_add_edge in Hi.
  destruct (decide (i = u)) as [->|Hiu].
  { exists v. unfold adjacent. rewrite edge_add_edge, decide_True; [eauto | tauto]. }
  destruct (decide (i = v)) as [->|Hiv].
  { exists u. unfold adjacent. rewrite edge_add_edge, decide_True; [eauto | tauto]. }
  assert (Hd : i ∈ dom g).
  { rewrite !elem_of_union, !elem_of_singleton in Hi. tauto. }
  destruct (Hg i Hd) as [k Hk]. exists k. unfold adjacent.
  rewrite edge_add_edge. case_decide; [eauto | done].
Qed.

(** ** Link construction *)

Lemma link_attr_sym tx mr mc ni nj :
  link_attr tx mr mc ni nj = link_attr tx mr mc nj ni.
Proof. unfold link_attr. by rewrite (dist_sym (x ni, y ni)). Qed.

Lemma wanted_sym m tx mr mc i j : wanted m tx mr mc i j = wanted m tx mr mc j i.
Proof.
  unfold wanted. repeat case_decide; try done; try congruence.
  destruct (m !! i) as [ni|], (m !! j) as [nj|]; simpl; try done.
  apply link_attr_sym.
Qed.

Section LinkAll.
Variables (tx : Z) (mr mc : bool).

Lemma link_loops_flat ns ks g :
  foldl (λ g1 '(i, ni),
           foldl (λ g2 '(j, nj), link tx mr mc i ni j nj g2) g1 ks) g ns =
  foldl (link_step tx mr mc) g (cprod ns ks).
Proof.
  revert g. induction ns as [|[i ni] rest IH]; intros g; [done|].
  simpl. change (cprod ((i, ni) :: rest) ks)
    with ((((i, ni),.) <$> ks) ++ cprod rest ks).
  rewrite foldl_app, <- IH. f_equal.
  rewrite foldl_fmap. clear. revert g.
  induction ks as [|[j nj] ks IH]; intros g; [done|]. simpl. apply IH.
Qed.

Lemma link_all_flat ns g :
  link_all tx mr mc ns g = foldl (link_step tx mr mc) g (cprod ns ns).
Proof. apply link_loops_flat. Qed.

Lemma edge_link i ni j nj g a b :
  edge (link tx mr mc i ni j nj g) a b =
  if decide (i ≠ j ∧ ((a = i ∧ b = j) ∨ (a = j ∧ b = i))) then
    match link_attr tx mr mc ni nj with
    | Some e => Some e
    | None => edge g a b
    end
  else edge g a b.
Proof.
  unfold link, link_attr. destruct (decide (i ≠ j)) as [Hij|Hij].
  - destruct (dist_le _ _).
    + rewrite edge_add_edge. repeat case_decide; try done; tauto.
    + by case_decide.
  - rewrite decide_False by tauto. done.
Qed.

Lemma no_isolated_link i ni j nj g :
  no_isolated g → no_isolated (link tx mr mc i ni j nj g).
Proof.
  intros Hg. unfold link. case_decide; [|done].
  destruct (dist_le _ _); [by apply no_isolated_add_edge | done].
Qed.

Lemma no_isolated_foldl ps g :
  no_isolated g → no_isolated (foldl (link_step tx mr mc) g ps).
Proof.
  revert g. induction ps as [|p ps IH]; intros g Hg; [done|].
  simpl. apply IH, no_isolated_link, Hg.
Qed.

Variable m : gmap Z Node.

Lemma edge_foldl_link ps g a b :
  (∀ i ni j nj, ((i, ni), (j, nj)) ∈ ps → m !! i = Some ni ∧ m !! j = Some nj) →
  (met ps a b → is_Some (wanted m tx mr mc a b) →
     edge (foldl (link_step tx mr mc) g ps) a b = wanted m tx mr mc a b) ∧
  (¬ (met ps a b ∧ is_Some (wanted m tx mr mc a b)) →
     edge (foldl (link_step tx mr mc) g ps) a b = edge g a b).
Proof.
  induction ps as [|[[i ni] [j nj]] ps IH] using rev_ind; intros Hps.
  { split; [|done]. intros (na & nb & [H|H]); by apply not_elem_of_nil in H. }
  destruct IH as [IH1 IH2].
  { intros ???? Hin. apply Hps. apply elem_of_app. by left. }
  destruct (Hps i ni j nj) as [Hi Hj].
  { apply elem_of_app. right. by apply list_elem_of_singleton. }
  rewrite foldl_app. simpl. unfold link_step at 1 3. simpl.
  rewrite edge_link.
  assert (Hmet : met (ps ++ [((i, ni), (j, nj))]) a b ↔
                 met ps a b ∨ (a = i ∧ b = j) ∨ (a = j ∧ b = i)).
  { unfold met. split.
    - intros (na & nb & [H|H]); apply elem_of_app in H as [H|H];
        try (left; exists na, nb; tauto);
        apply list_elem_of_singleton in H; inversion H; subst; tauto.
    - intros [(na & nb & [H|H])|[[-> ->]|[-> ->]]].
      + exists na, nb. left. apply elem_of_app. by left.
      + exists na, nb. right. apply elem_of_app. by left.
      + exists ni, nj. left. apply elem_of_app. right.
        by apply list_elem_of_singleton.
      + exists nj, ni. right. apply elem_of_app. right.
        by apply list_elem_of_singleton. }
  assert (Hw : (a = i ∧ b = j) ∨ (a = j ∧ b = i) →
               wanted m tx mr mc a b =
               if decide (i ≠ j) then link_attr tx mr mc ni nj else None).
  { intros [[-> ->]|[-> ->]]; [|rewrite wanted_sym];
      unfold wanted; case_decide; try done; by rewrite Hi, Hj. }
  destruct (decide (i ≠ j ∧ ((a = i ∧ b = j) ∨ (a = j ∧ b = i)))) as [Hc|Hc].
  - destruct Hc as [Hij Hab]. specialize (Hw Hab).
    rewrite decide_True in Hw by done.
    destruct (link_attr tx mr mc ni nj) as [e|] eqn:He.
    + split; [by rewrite Hw | intros Hn; exfalso; apply Hn].
      rewrite Hmet, Hw. split; [tauto | eauto].
    + split.
      * intros _ Hs. rewrite Hw in Hs. by destruct Hs.
      * intros _. apply IH2. intros [_ Hs]. rewrite Hw in Hs. by destruct Hs.
  - split.
    + intros Hm Hs. apply IH1; [|done].
      apply Hmet in Hm as [Hm|Hab]; [done|]. exfalso.
      rewrite (Hw Hab) in Hs. case_decide; [tauto | by destruct Hs].
    + intros Hn. apply IH2. intros [Hm Hs]. apply Hn. rewrite Hmet. tauto.
Qed.

(** After the loops the graph holds exactly the wanted links, on top of
    what it held before. *)
Lemma edge_link_all g a b :
  edge (link_all tx mr mc (map_to_list m) g) a b =
  match wanted m tx mr mc a b with
  | Some e => Some e
  | None => edge g a b
  end.
Proof.
  rewrite link_all_flat.
  destruct (edge_foldl_link (cprod (map_to_list m) (map_to_list m)) g a b)
    as [H1 H2].
  { intros i ni j nj Hin. apply list_elem_of_cprod in Hin as [Hi Hj].
    simpl in *. by apply elem_of_map_to_list in Hi, Hj. }
  destruct (wanted m tx mr mc a b) as [e|] eqn:Hw.
  - apply H1; [|eauto]. unfold wanted in Hw. case_decide; [|done].
    destruct (m !! a) as [na|] eqn:Ha; [|done].
    destruct (m !! b) as [nb|] eqn:Hb; [|done].
    exists na, nb. left. apply list_elem_of_cprod.
    split; by apply elem_of_map_to_list.
  - apply H2. intros [_ Hs]. by destruct Hs.
Qed.

Lemma no_isolated_link_all ns g :
  no_isolated g → no_isolated (link_all tx mr mc ns g).
Proof. rewrite link_all_flat. apply no_isolated_foldl. Qed.
End LinkAll.

Lemma toR_dist ni nj : toR (dist (x ni, y ni) (x nj, y nj)) = euclid ni nj.
Proof.
  unfold toR, euclid, dist, Rsqr. simpl.
  by rewrite plus_IZR, !mult_IZR, !minus_IZR.
Qed.

Lemma build_links_run tx mr mc w :
  build_links tx mr mc w =
  inr (tt, with_G (link_all tx mr mc (map_to_list (nodes w)) (G w)) w).
Proof. done. Qed.

(** C1: starting from the empty graph, the Topology Builder links two
    distinct nodes exactly when their Euclidean distance is at most
    [tx_range]; the link is stored in both directions with the distance as
    weight and with capacity [max(1, 100 - floor(distance / 3))], plus 20
    with multi-radio and plus 15 with multi-channel, which is at least 1. *)
Theorem topology_links w tx mr mc i j ni nj :
  G w = ∅ → nodes w !! i = Some ni → nodes w !! j = Some nj → i ≠ j →
  ∃ w', build_links tx mr mc w = inr (tt, w') ∧
        nodes w' = nodes w ∧
        (has_edge (G w') i j ↔ (euclid ni nj <= IZR tx)%R) ∧
        ∀ a, edge (G w') i j = Some a →
             edge (G w') j i = Some a ∧
             toR (weight a) = euclid ni nj ∧
             capacity a = Z.max 1 (100 - Zfloor (euclid ni nj / 3))
                          + (if mr then 20 else 0) + (if mc then 15 else 0) ∧
             1 ≤ capacity a.
Proof.
  intros HG Hi Hj Hij. eexists. split; [apply build_links_run|].
  split; [done|]. simpl.
  assert (He : ∀ a b, edge (link_all tx mr mc (map_to_list (nodes w)) (G w)) a b
                      = wanted (nodes w) tx mr mc a b).
  { intros a b. rewrite edge_link_all, HG.
    destruct (wanted _ _ _ _ _ _); [done|].
    unfold edge. by rewrite lookup_empty. }
  unfold has_edge. rewrite !He, (wanted_sym _ _ _ _ j i).
  assert (Hw : wanted (nodes w) tx mr mc i j = link_attr tx mr mc ni nj).
  { unfold wanted. rewrite decide_True by done. by rewrite Hi, Hj. }
  rewrite Hw. unfold link_attr.
  pose proof (dist_radicand_nonneg (x ni, y ni) (x nj, y nj)) as Hnn.
  pose proof (dist_le_real _ tx Hnn) as Hle. rewrite toR_dist in Hle.
  split.
  - rewrite <- Hle. destruct (dist_le _ _).
    + split; [done | intros _; split; [eauto | done]].
    + split; [intros [[a Ha] _]; discriminate | discriminate].
  - intros a Ha. destruct (dist_le _ _); [|discriminate].
    injection Ha as <-. simpl. split; [done|]. split; [apply toR_dist|].
    split; [|apply link_capacity_pos].
    rewrite link_capacity_eq, (int_div3_real _ Hnn), toR_dist. done.
Qed.

Lemma topology_links_witness :
  ∃ w', build_links 150 false false two_nodes = inr (tt, w') ∧
        nodes w' = nodes two_nodes ∧
        (has_edge (G w') 0 1 ↔
           (euclid (mkNode 0 0 90 100 false) (mkNode 100 0 80 100 true) <= IZR 150)%R) ∧
        ∀ a, edge (G w') 0 1 = Some a →
             edge (G w') 1 0 = Some a ∧
             toR (weight a) = euclid (mkNode 0 0 90 100 false) (mkNode 100 0 80 100 true) ∧
             capacity a =
               Z.max 1 (100 - Zfloor (euclid (mkNode 0 0 90 100 false)
                                             (mkNode 100 0 80 100 true) / 3))
               + 0 + 0 ∧
             1 ≤ capacity a.
Proof.
  apply (topology_links two_nodes 150 false false 0 1
           (mkNode 0 0 90 100 false) (mkNode 100 0 80 100 true));
    [reflexivity | reflexivity | reflexivity | lia].
Defined.

(** ** Walks and simple paths *)

Lemma chain_cons g u p :
  chain g (u :: p) ↔ match p with [] => True | v :: _ => adjacent g u v ∧ chain g p end.
Proof. by destruct p. Qed.

Lemma chain_app_r g l1 l2 : chain g (l1 ++ l2) → chain g l2.
Proof.
  induction l1 as [|u l1 IH]; [done|]. simpl app. rewrite chain_cons.
  destruct (l1 ++ l2) eqn:E; [|tauto].
  apply app_eq_nil in E as [-> ->]. done.
Qed.

Lemma chain_rtc g p u v :
  head p = Some u → last p = Some v → chain g p → rtc (adjacent g) u v.
Proof.
  revert u. induction p as [|a p IH]; intros u Hh Hl Hc; [done|].
  injection Hh as ->. destruct p as [|b p].
  - injection Hl as ->. done.
  - destruct Hc as [Hab Hc]. eapply rtc_l; [exact Hab|].
    apply IH; [done | by rewrite last_cons_cons in Hl | done].
Qed.

(** A walk can be cut down to one that repeats no node. *)
Lemma rtc_simple g u v :
  rtc (adjacent g) u v →
  ∃ p, head p = Some u ∧ last p = Some v ∧ chain g p ∧ NoDup p.
Proof.
  induction 1 as [u|u w v Huw _ (q & Hh & Hl & Hc & Hnd)].
  { exists [u]. split_and!; try done. apply NoDup_singleton. }
  destruct (decide (u ∈ q)) as [Hin|Hin].
  - apply list_elem_of_split in Hin as (l1 & l2 & ->).
    exists (u :: l2). split; [done|]. split; [|split].
    + rewrite last_app in Hl.
      destruct (last (u :: l2)) eqn:E; [done|]. by apply last_None in E.
    + by apply chain_app_r in Hc.
    + by apply NoDup_app in Hnd as (_ & _ & ?).
  - exists (u :: q). destruct q as [|b q]; [done|]. injection Hh as ->.
    split; [done|]. split; [by rewrite last_cons_cons|].
    split; [done | by apply NoDup_cons].
Qed.

Lemma simple_paths_sound fuel g seen u dst p :
  u ∉ seen → p ∈ simple_paths fuel g seen u dst →
  head p = Some u ∧ last p = Some dst ∧ chain g p ∧ NoDup p ∧
  ∀ v, v ∈ p → v ∉ seen.
Proof.
  revert seen u p. induction fuel as [|fuel IH]; intros seen u p Hu Hp; simpl in Hp.
  - case_decide as Hd; [|by apply not_elem_of_nil in Hp].
    apply list_elem_of_singleton in Hp as ->. subst.
    split_and!; try done; [apply NoDup_singleton|].
    intros v Hv. by apply list_elem_of_singleton in Hv as ->.
  - case_decide as Hd.
    { apply list_elem_of_singleton in Hp as ->. subst.
      split_and!; try done; [apply NoDup_singleton|].
      intros v Hv. by apply list_elem_of_singleton in Hv as ->. }
    apply list_elem_of_bind in Hp as (v & Hp & Hv).
    case_decide as Hs; [by apply not_elem_of_nil in Hp|].
    apply list_elem_of_fmap in Hp as (q & -> & Hq).
    apply IH in Hq as (Hh & Hl & Hc & Hnd & Hfresh); [|done].
    destruct q as [|b q]; [done|]. injection Hh as ->.
    split; [done|]. split; [by rewrite last_cons_cons|].
    split; [split; [by apply adjacent_keys | done]|].
    split.
    + apply NoDup_cons. split; [|done]. intros Hin.
      apply Hfresh in Hin. apply Hin, list_elem_of_here.
    + intros a Ha. apply elem_of_cons in Ha as [->|Ha]; [done|].
      apply Hfresh in Ha. intros Hin. apply Ha. by apply list_elem_of_further.
Qed.

Lemma simple_paths_complete g dst p :
  ∀ fuel seen u,
  head p = Some u → last p = Some dst → chain g p → NoDup p →
  (∀ v, v ∈ p → v ∉ seen) → (length p ≤ S fuel)%nat →
  p ∈ simple_paths fuel g seen u dst.
Proof.
  induction p as [|a p IH]; intros fuel seen u Hh Hl Hc Hnd Hfresh Hlen; [done|].
  injection Hh as ->. apply NoDup_cons in Hnd as [Hup Hnd].
  destruct (decide (u = dst)) as [->|Hne].
  - destruct p as [|b p].
    + destruct fuel; simpl; rewrite decide_True by done; apply list_elem_of_here.
    + exfalso. apply Hup. rewrite last_cons_cons in Hl.
      by apply last_Some_elem_of.
  - destruct p as [|b p]; [by injection Hl|].
    destruct fuel as [|fuel]; [simpl in Hlen; lia|].
    simpl. rewrite decide_False by done.
    destruct Hc as [Hab Hc].
    apply list_elem_of_bind. exists b. split; [|by apply adjacent_keys].
    rewrite decide_False.
    + apply list_elem_of_fmap. exists (b :: p). split; [done|].
      apply IH; [done | by rewrite last_cons_cons in Hl | done | done | | simpl in *; lia].
      intros v Hv Hin. apply elem_of_cons in Hin as [->|Hin]; [done|].
      eapply Hfresh; [|exact Hin]. by apply list_elem_of_further.
    + intros Hin. apply elem_of_cons in Hin as [->|Hin].
      * apply Hup, list_elem_of_here.
      * eapply Hfresh; [|exact Hin]. apply list_elem_of_further, list_elem_of_here.
Qed.

(** A simple walk that ends at a node of the graph stays within its nodes,
    so it is no longer than the graph has nodes. *)
Lemma chain_dom g p dst :
  last p = Some dst → dst ∈ dom g → chain g p → ∀ v, v ∈ p → v ∈ dom g.
Proof.
  induction p as [|a p IH]; intros Hl Hd Hc v Hv; [by apply not_elem_of_nil in Hv|].
  destruct p as [|b p].
  - apply list_elem_of_singleton in Hv as ->. by injection Hl as ->.
  - destruct Hc as [Hab Hc]. apply elem_of_cons in Hv as [->|Hv].
    + by eapply adjacent_dom_l.
    + apply IH; [by rewrite last_cons_cons in Hl | done..].
Qed.

Lemma simple_length (g : Graph) (p : list Z) :
  NoDup p → (∀ v, v ∈ p → v ∈ dom g) → (length p ≤ size g)%nat.
Proof.
  intros Hnd Hsub. rewrite <- size_dom.
  unfold size, set_size. simpl.
  apply submseteq_length, NoDup_submseteq; [done|].
  intros v Hv. apply elem_of_elements. by apply Hsub.
Qed.

(** ** Routing *)

Section RoutingFacts.
Variable cost_lt : list distance → list distance → bool.

Lemma cheapest_elem g p ps : cheapest cost_lt g p ps ∈ p :: ps.
Proof.
  unfold cheapest. revert p. induction ps as [|q ps IH]; intros p; simpl.
  - apply list_elem_of_here.
  - destruct (cost_lt _ _).
    + apply list_elem_of_further, IH.
    + specialize (IH p). apply elem_of_cons in IH as [->|IH].
      * apply list_elem_of_here.
      * by do 2 apply list_elem_of_further.
Qed.


(** A returned route is a walk from [src] to [dst] that repeats no node. *)
Lemma shortest_path_inr g src dst p :
  shortest_path cost_lt g src dst = inr p →
  walk_from_to g src dst p ∧ NoDup p ∧ ∀ v, v ∈ p → v ∈ dom g.
Proof.
  unfold shortest_path. case_decide as Hd; [|done]. destruct Hd as [Hs Ht].
  destruct (simple_paths _ _ _ _ _) as [|q qs] eqn:E; [done|].
  intros [= <-].
  pose proof (cheapest_elem g q qs) as Hin. rewrite <- E in Hin.
  apply simple_paths_sound in Hin as (Hh & Hl & Hc & Hnd & _);
    [|apply not_elem_of_nil].
  split; [done|]. split; [done|]. by eapply chain_dom.
Qed.

(** A route is returned exactly when the end points are connected. *)
Lemma shortest_path_connected g src dst :
  connected g src dst ↔ ∃ p, shortest_path cost_lt g src dst = inr p.
Proof.
  split.
  - intros (Hs & Ht & Hrtc). unfold shortest_path.
    rewrite decide_True by done.
    apply rtc_simple in Hrtc as (p & Hh & Hl & Hc & Hnd).
    assert (Hin : p ∈ simple_paths (size g) g [] src dst).
    { apply simple_paths_complete; try done.
      - intros v _. apply not_elem_of_nil.
      - etrans; [apply (simple_length g); [done | by eapply chain_dom]|]. lia. }
    destruct (simple_paths _ _ _ _ _); [by apply not_elem_of_nil in Hin | eauto].
  - intros [p Hp]. pose proof Hp as Hp'. apply shortest_path_inr in Hp' as [(Hh & Hl & Hc) _].
    unfold shortest_path in Hp. case_decide as Hd; [|done].
    destruct Hd. split; [done|]. split; [done|]. by eapply chain_rtc.
Qed.

Lemma shortest_path_not_connected g src dst :
  ¬ connected g src dst ↔ ∃ e, shortest_path cost_lt g src dst = inl e.
Proof.
  rewrite shortest_path_connected.
  destruct (shortest_path cost_lt g src dst) as [e|p]; split.
  - eauto.
  - intros _ [p Hp]. done.
  - intros Hn. exfalso. eauto.
  - intros [e He]. done.
Qed.

Lemma shortest_path_self g u :
  u ∈ dom g → shortest_path cost_lt g u u = inr [u].
Proof.
  intros Hu. unfold shortest_path. rewrite decide_True by done.
  destruct (size g); simpl; by rewrite decide_True.
Qed.

Lemma find_route_run src dst w :
  find_route cost_lt src dst w =
  inr (match shortest_path cost_lt (G w) src dst with
       | inr p => Some p
       | inl _ => None
       end, w).
Proof. unfold find_route. by destruct (shortest_path _ _ _ _). Qed.

(** [find_route] never raises and leaves the world alone; it yields a
    route exactly when the end points are connected. *)
Lemma find_route_none src dst w :
  ¬ connected (G w) src dst ↔ find_route cost_lt src dst w = inr (None, w).
Proof.
  rewrite shortest_path_not_connected, find_route_run.
  destruct (shortest_path _ _ _ _) as [e|p]; split; try done; eauto.
  intros [e He]. done.
Qed.

Lemma find_route_some src dst w p :
  find_route cost_lt src dst w = inr (Some p, w) →
  walk_from_to (G w) src dst p ∧ NoDup p ∧ p ≠ [] ∧ ∀ v, v ∈ p → v ∈ dom (G w).
Proof.
  rewrite find_route_run.
  destruct (shortest_path _ _ _ _) as [e|q] eqn:E; [done|].
  intros [= <-]. apply shortest_path_inr in E as ((Hh & Hl & Hc) & Hnd & Hd).
  split_and!; try done. by intros ->.
Qed.
End RoutingFacts.

(** ** Running the monad *)

Lemma bind_run {A B} (m : M A) (k : A → M B) w :
  (m ≫= k) w = match m w with inl e => inl e | inr (a, w') => k a w' end.
Proof. done. Qed.

Lemma ret_run {A} (a : A) w : (mret a : M A) w = inr (a, w).
Proof. done. Qed.

Lemma randint_run a b w :
  a ≤ b → randint a b w = inr (a + raw_at w 0 mod (b - a + 1), advance 1 w).
Proof.
  intros Hab. unfold randint.
  destruct (Z.ltb_spec b a) as [?|_]; [lia | done].
Qed.

Lemma randint_range a b w v w' :
  randint a b w = inr (v, w') → a ≤ v ≤ b.
Proof.
  unfold randint. destruct (Z.ltb_spec b a) as [?|Hab]; [done|].
  intros [= <- _]. pose proof (Z.mod_pos_bound (raw_at w 0) (b - a + 1)).
  unfold raw_at in *. simpl in *. lia.
Qed.

(** ** One hop *)

Lemma decay_range w k : 1 ≤ decay w k ≤ 5.
Proof. unfold decay. pose proof (Z.mod_pos_bound (raw_at w k) 5). lia. Qed.

Lemma visit_missing hop w :
  nodes w !! hop = None → visit hop w = inl KeyError.
Proof.
  intros Hn. unfold visit. rewrite bind_run. unfold node_at. by rewrite Hn.
Qed.

Lemma visit_drop hop w n :
  nodes w !! hop = Some n → selfish n = true → rolls_drop w = true →
  visit hop w =
  inr (true, advance 1 (with_nodes (<[hop := set_trust (trust n - 5) n]> (nodes w)) w)).
Proof.
  intros Hn Hs Hr. unfold visit. rewrite bind_run. unfold node_at at 1.
  rewrite Hn, Hs. rewrite bind_run, bind_run.
  unfold random_random. rewrite bind_run. unfold draw. rewrite ret_run.
  change (raw (random w) (pos (random w))) with (raw_at w 0).
  unfold rolls_drop in Hr. rewrite Hr.
  rewrite bind_run. unfold update_node. rewrite bind_run.
  unfold node_at. simpl. by rewrite Hn.
Qed.

Lemma visit_pass hop w n :
  nodes w !! hop = Some n → selfish n = true → rolls_drop w = false →
  visit hop w =
  inr (false, advance 2 (with_nodes (<[hop := set_power (power n - decay w 1) n]> (nodes w)) w)).
Proof.
  intros Hn Hs Hr. unfold visit. rewrite bind_run. unfold node_at at 1.
  rewrite Hn, Hs. rewrite bind_run, bind_run.
  unfold random_random. rewrite bind_run. unfold draw. rewrite ret_run.
  change (raw (random w) (pos (random w))) with (raw_at w 0).
  unfold rolls_drop in Hr. rewrite Hr.
  rewrite ret_run, bind_run. unfold node_at. simpl. by rewrite Hn.
Qed.

Lemma visit_honest hop w n :
  nodes w !! hop = Some n → selfish n = false →
  visit hop w =
  inr (false, advance 1 (with_nodes (<[hop := set_power (power n - decay w 0) n]> (nodes w)) w)).
Proof.
  intros Hn Hs. unfold visit. rewrite bind_run. unfold node_at at 1.
  rewrite Hn, Hs. rewrite bind_run, ret_run, bind_run.
  unfold node_at. by rewrite Hn.
Qed.

Lemma visit_touched hop w b w' : visit hop w = inr (b, w') → touched hop w w'.
Proof.
  intros Hv. destruct (nodes w !! hop) as [n|] eqn:Hn;
    [|by rewrite visit_missing in Hv].
  destruct (selfish n) eqn:Hs; [destruct (rolls_drop w) eqn:Hr|].
  - rewrite (visit_drop hop w n) in Hv by done. injection Hv as <- <-.
    split_and!; simpl; try done; [lia|].
    eexists n, _. split_and!; try done; simpl; lia.
  - rewrite (visit_pass hop w n) in Hv by done. injection Hv as <- <-.
    split_and!; simpl; try done; [lia|].
    eexists n, _. split_and!; try done; simpl; try lia.
    pose proof (decay_range w 1). lia.
  - rewrite (visit_honest hop w n) in Hv by done. injection Hv as <- <-.
    split_and!; simpl; try done; [lia|].
    eexists n, _. split_and!; try done; simpl; try lia.
    pose proof (decay_range w 0). lia.
Qed.

(** ** The loop over the hops *)

Lemma framed_refl hops w : framed hops w w.
Proof.
  split_and!; try done. intros i n Hn. exists n. split_and!; try done; lia.
Qed.

Lemma touched_framed hop rest w w1 w2 :
  touched hop w w1 → framed rest w1 w2 → framed (hop :: rest) w w2.
Proof.
  intros (HG & Hraw & Hpos & n & n' & Hn & Hnodes & Hx & Hy & Hs & Hp & Ht)
         (HG' & Hraw' & Hpos' & Hnone & Hsome).
  split_and!; try congruence; [lia | |].
  - intros i Hi. apply Hnone. rewrite Hnodes.
    rewrite lookup_insert_ne; [done | congruence].
  - intros i m Hm. destruct (decide (i = hop)) as [->|Hne].
    + assert (m = n) as -> by congruence.
      destruct (Hsome hop n') as (n'' & Hn'' & ? & ? & ? & ? & ? & ?).
      { rewrite Hnodes. apply lookup_insert_eq. }
      exists n''. split_and!; try congruence; try lia.
      intros Hnin. exfalso. apply Hnin, list_elem_of_here.
    + destruct (Hsome i m) as (m' & Hm' & ? & ? & ? & ? & ? & Hsame).
      { rewrite Hnodes. by rewrite lookup_insert_ne. }
      exists m'. split_and!; try done.
      intros Hnin. apply Hsame. intros Hin. apply Hnin. by apply list_elem_of_further.
Qed.

Lemma walk_cons_run hop rest w :
  walk (hop :: rest) w =
  match visit hop w with
  | inl e => inl e
  | inr (true, w1) => inr (true, w1)
  | inr (false, w1) => walk rest w1
  end.
Proof.
  simpl. rewrite bind_run. by destruct (visit hop w) as [e|[[] w1]].
Qed.

Lemma walk_framed hops w b w' : walk hops w = inr (b, w') → framed hops w w'.
Proof.
  revert w. induction hops as [|hop rest IH]; intros w Hw.
  - injection Hw as <- <-. apply framed_refl.
  - rewrite walk_cons_run in Hw.
    destruct (visit hop w) as [e|[[] w1]] eqn:Hv; [done| |].
    + injection Hw as <- <-. apply visit_touched in Hv.
      eapply touched_framed; [exact Hv | apply framed_refl].
    + apply visit_touched in Hv. eapply touched_framed; [exact Hv | by apply IH].
Qed.

(** A walk over a prefix that does not drop hands over to the rest. *)
Lemma walk_app pre post w w1 :
  walk pre w = inr (false, w1) → walk (pre ++ post) w = walk post w1.
Proof.
  revert w. induction pre as [|hop pre IH]; intros w Hw.
  - by injection Hw as <-.
  - simpl app. rewrite walk_cons_run in Hw |- *.
    destruct (visit hop w) as [e|[[] w2]]; [done | done | by apply IH].
Qed.

Lemma framed_lookup hops w w' i :
  framed hops w w' → i ∉ hops → nodes w' !! i = nodes w !! i.
Proof.
  intros (_ & _ & _ & Hnone & Hsome) Hi.
  destruct (nodes w !! i) as [n|] eqn:Hn; [|by apply Hnone].
  destruct (Hsome i n Hn) as (n' & Hn' & _ & _ & _ & _ & _ & Hsame).
  by rewrite Hn', Hsame.
Qed.

(** Over hops that are all present and not selfish the loop runs to its
    end, reads one raw value per hop and lowers the power of each hop by an
    amount of 1 to 5. *)
Lemma walk_honest hops w :
  NoDup hops →
  (∀ hop, hop ∈ hops → ∃ n, nodes w !! hop = Some n ∧ selfish n = false) →
  ∃ w', walk hops w = inr (false, w') ∧
        pos (random w') = (length hops + pos (random w))%nat ∧
        ∀ hop, hop ∈ hops →
               ∃ n n', nodes w !! hop = Some n ∧ nodes w' !! hop = Some n' ∧
                       n' = set_power (power n') n ∧
                       1 ≤ power n - power n' ≤ 5.
Proof.
  revert w. induction hops as [|hop rest IH]; intros w Hnd Hall.
  { exists w. split_and!; try done. intros hop Hin. by apply not_elem_of_nil in Hin. }
  apply NoDup_cons in Hnd as [Hfresh Hnd].
  destruct (Hall hop) as (n & Hn & Hs); [apply list_elem_of_here|].
  pose proof (visit_honest hop w n Hn Hs) as Hv.
  set (w1 := advance 1 (with_nodes (<[hop:=set_power (power n - decay w 0) n]> (nodes w)) w)) in *.
  destruct (IH w1 Hnd) as (w' & Hw' & Hpos & Hrest).
  { intros h Hh. destruct (Hall h) as (m & Hm & Hms); [by apply list_elem_of_further|].
    exists m. split; [|done]. simpl. rewrite lookup_insert_ne; [done|].
    intros ->. done. }
  exists w'. split; [by rewrite walk_cons_run, Hv|].
  split; [rewrite Hpos; simpl; lia|].
  intros h Hh. apply elem_of_cons in Hh as [->|Hh].
  - exists n, (set_power (power n - decay w 0) n). split; [done|].
    split.
    + rewrite (framed_lookup rest w1 w' hop); [|by eapply walk_framed | done].
      simpl. apply lookup_insert_eq.
    + split; [done|]. simpl. pose proof (decay_range w 0). lia.
  - destruct (Hrest h Hh) as (m & m' & Hm & Hm' & Heq & Hrange).
    exists m, m'. split; [|done]. simpl in Hm.
    rewrite lookup_insert_ne in Hm; [done|]. intros ->. done.
Qed.

(** ** The packet send *)

Section Delivery.
Variable cost_lt : list distance → list distance → bool.

Lemma send_packet_no_route src dst w :
  find_route cost_lt src dst w = inr (None, w) →
  send_packet cost_lt src dst w = inr ((None, "No Path Found"%string), w).
Proof. intros Hr. unfold send_packet. by rewrite bind_run, Hr. Qed.

Lemma send_packet_route src dst w hops :
  find_route cost_lt src dst w = inr (Some hops, w) →
  send_packet cost_lt src dst w =
  match walk hops w with
  | inl e => inl e
  | inr (true, w') => inr ((Some hops, "Dropped by selfish node"%string), w')
  | inr (false, w') => inr ((Some hops, "Delivered"%string), w')
  end.
Proof.
  intros Hr. pose proof (find_route_some _ _ _ _ _ Hr) as (_ & _ & Hne & _).
  unfold send_packet. rewrite bind_run, Hr.
  destruct hops as [|hop rest]; [done|].
  rewrite bind_run. by destruct (walk (hop :: rest) w) as [e|[[] w']].
Qed.

Lemma find_route_cases src dst w :
  (find_route cost_lt src dst w = inr (None, w) ∧ ¬ connected (G w) src dst) ∨
  (∃ hops, find_route cost_lt src dst w = inr (Some hops, w)).
Proof.
  destruct (shortest_path cost_lt (G w) src dst) as [e|p] eqn:E.
  - left. assert (Hr : find_route cost_lt src dst w = inr (None, w))
      by (by rewrite find_route_run, E).
    split; [done | by apply find_route_none in Hr].
  - right. exists p. by rewrite find_route_run, E.
Qed.
End Delivery.

(** C2: when the route found is [pre ++ hop :: post], the loop passes [pre]
    without a drop, and [hop] is selfish with a drop roll below [0.6], then
    [send_packet] returns the route with "Dropped by selfish node"; the only
    change it makes after [pre] is the trust of [hop], lowered by exactly 5,
    so the power of [hop] is as before the send, no node of [post] is
    touched, and just one more raw value (the roll) is read. *)
Theorem send_packet_drop cost_lt src dst w pre hop post w1 n :
  find_route cost_lt src dst w = inr (Some (pre ++ hop :: post), w) →
  walk pre w = inr (false, w1) →
  nodes w !! hop = Some n → selfish n = true → rolls_drop w1 = true →
  ∃ w', send_packet cost_lt src dst w =
          inr ((Some (pre ++ hop :: post), "Dropped by selfish node"%string), w') ∧
        nodes w' = <[hop := set_trust (trust n - 5) n]> (nodes w1) ∧
        nodes w' !! hop = Some (mkNode (x n) (y n) (power n) (trust n - 5) (selfish n)) ∧
        (∀ h, h ∈ post → nodes w' !! h = nodes w !! h) ∧
        G w' = G w ∧
        random w' = mkRandom (raw (random w)) (S (pos (random w1))).
Proof.
  intros Hr Hpre Hn Hs Hroll.
  pose proof (find_route_some _ _ _ _ _ Hr) as (_ & Hnd & _ & _).
  apply NoDup_app in Hnd as (_ & Hdisj & Hnd2).
  apply NoDup_cons in Hnd2 as [Hhp _].
  pose proof (walk_framed _ _ _ _ Hpre) as Hfr.
  assert (Hn1 : nodes w1 !! hop = Some n).
  { rewrite (framed_lookup pre w w1 hop Hfr); [done|].
    intros Hin. eapply Hdisj; [exact Hin | apply list_elem_of_here]. }
  eexists. split.
  { rewrite (send_packet_route _ _ _ _ _ Hr), (walk_app _ _ _ _ Hpre).
    rewrite walk_cons_run, (visit_drop hop w1 n Hn1 Hs Hroll). done. }
  destruct Hfr as (HG & Hraw & _). simpl.
  split_and!; try done.
  - by rewrite lookup_insert_eq.
  - intros h Hh. rewrite lookup_insert_ne by (intros ->; done).
    apply (framed_lookup pre w w1 h); [by apply walk_framed in Hpre|].
    intros Hin. eapply Hdisj; [exact Hin | by apply list_elem_of_further].
  - by rewrite Hraw.
Qed.

(** C3: when no node of the route found is selfish, [send_packet] returns
    the route with "Delivered" whatever the raw values of the source are;
    one raw value is read per hop, and the power of every node of the route
    ends lower by an amount of 1 to 5, its other fields unchanged. *)
Theorem send_packet_delivered cost_lt src dst w route :
  find_route cost_lt src dst w = inr (Some route, w) →
  (∀ hop, hop ∈ route → ∃ n, nodes w !! hop = Some n ∧ selfish n = false) →
  ∃ w', send_packet cost_lt src dst w = inr ((Some route, "Delivered"%string), w') ∧
        pos (random w') = (length route + pos (random w))%nat ∧
        ∀ hop, hop ∈ route →
               ∃ n n', nodes w !! hop = Some n ∧ nodes w' !! hop = Some n' ∧
                       n' = set_power (power n') n ∧
                       1 ≤ power n - power n' ≤ 5.
Proof.
  intros Hr Hall.
  pose proof (find_route_some _ _ _ _ _ Hr) as (_ & Hnd & _ & _).
  destruct (walk_honest route w Hnd Hall) as (w' & Hw & Hpos & Hpow).
  exists w'. split; [|done].
  by rewrite (send_packet_route _ _ _ _ _ Hr), Hw.
Qed.

(** C4: on the graph that the Topology Builder makes from the empty graph,
    [find_route] returns [None], without raising, when no walk joins [src]
    and [dst] or when they are one node without an incident edge; it
    returns [[src]] when they are one node with an incident edge. *)
Theorem find_route_no_route_or_self cost_lt tx mr mc w0 w src dst :
  G w0 = ∅ → build_links tx mr mc w0 = inr (tt, w) →
  (¬ rtc (adjacent (G w)) src dst ∨ (src = dst ∧ ¬ ∃ v, adjacent (G w) src v) →
   find_route cost_lt src dst w = inr (None, w)) ∧
  (src = dst → (∃ v, adjacent (G w) src v) →
   find_route cost_lt src dst w = inr (Some [src], w)).
Proof.
  intros HG Hb. rewrite build_links_run in Hb. injection Hb as <-.
  set (w := with_G _ w0).
  assert (Hiso : no_isolated (G w)).
  { simpl. apply no_isolated_link_all. rewrite HG. apply no_isolated_empty. }
  split.
  - intros Hcase. apply find_route_none. intros (Hs & Ht & Hrtc).
    destruct Hcase as [Hn|[_ Hn]]; [done|]. by apply Hn, Hiso.
  - intros <- [v Hv]. rewrite find_route_run.
    rewrite shortest_path_self; [done|]. by eapply adjacent_dom_l.
Qed.

(** C5: when [src] and [dst] are not connected in the graph, [send_packet]
    returns [(None, "No Path Found")] without raising, and the world (every
    node, the graph and the random source) is as before. *)
Theorem send_packet_no_path cost_lt src dst w :
  ¬ connected (G w) src dst →
  send_packet cost_lt src dst w = inr ((None, "No Path Found"%string), w).
Proof.
  intros Hn. apply send_packet_no_route. by apply find_route_none.
Qed.

(** C8: when [send_packet] returns, the graph is as before, no node is
    added or removed, every node keeps its position and its selfish flag,
    and a node that is not on the returned route keeps all its fields. *)
Theorem send_packet_frame cost_lt src dst w route status w' :
  send_packet cost_lt src dst w = inr ((route, status), w') →
  G w' = G w ∧
  dom (nodes w') = dom (nodes w) ∧
  ∀ i n, nodes w !! i = Some n →
         ∃ n', nodes w' !! i = Some n' ∧
               x n' = x n ∧ y n' = y n ∧ selfish n' = selfish n ∧
               (i ∉ default [] route → n' = n).
Proof.
  intros Hsend.
  assert (Hfr : framed (default [] route) w w').
  { destruct (find_route_cases cost_lt src dst w) as [[Hr _]|[hops Hr]].
    - rewrite (send_packet_no_route _ _ _ _ Hr) in Hsend.
      injection Hsend as <- _ <-. apply framed_refl.
    - rewrite (send_packet_route _ _ _ _ _ Hr) in Hsend.
      destruct (walk hops w) as [e|[[] w2]] eqn:Hw; [done| |];
        injection Hsend as <- _ <-; by eapply walk_framed. }
  destruct Hfr as (HG & _ & _ & Hnone & Hsome).
  split; [done|]. split.
  - apply set_eq. intros i. rewrite !elem_of_dom.
    destruct (nodes w !! i) as [n|] eqn:Hn.
    + destruct (Hsome i n Hn) as (n' & -> & _). split; eauto.
    + rewrite (Hnone i Hn). done.
  - intros i n Hn. destruct (Hsome i n Hn) as (n' & ? & ? & ? & ? & _ & _ & ?).
    exists n'. done.
Qed.

(** ** Node generation *)

Lemma generate_nodes_spec ids w :
  ∃ w', generate_nodes ids w = inr (tt, w') ∧
        G w' = G w ∧
        pos (random w') = (3 * length ids + pos (random w))%nat ∧
        (∀ i, i ∉ ids → nodes w' !! i = nodes w !! i) ∧
        ∀ i, i ∈ ids →
             ∃ n, nodes w' !! i = Some n ∧ trust n = 100 ∧ selfish n = false ∧
                  0 ≤ x n ≤ 800 ∧ 0 ≤ y n ≤ 500 ∧ 70 ≤ power n ≤ 100.
Proof.
  revert w. induction ids as [|i rest IH]; intros w.
  { exists w. split_and!; try done. intros i Hi. by apply not_elem_of_nil in Hi. }
  simpl. rewrite bind_run, randint_run by lia.
  rewrite bind_run, randint_run by lia.
  rewrite bind_run, randint_run by lia.
  rewrite bind_run. unfold put_node at 1.
  match goal with |- context [generate_nodes rest ?w1] => set (w1' := w1) end.
  destruct (IH w1') as (w' & Hrun & HG & Hpos & Hout & Hin).
  exists w'. split; [done|]. split; [by rewrite HG|].
  split; [rewrite Hpos; simpl; lia|]. split.
  - intros j Hj. rewrite Hout.
    + simpl. rewrite lookup_insert_ne; [done|].
      intros ->. apply Hj, list_elem_of_here.
    + intros Hjr. apply Hj. by apply list_elem_of_further.
  - intros j Hj. destruct (decide (j ∈ rest)) as [Hjr|Hjr]; [by apply Hin|].
    apply elem_of_cons in Hj as [->|Hj]; [|done].
    rewrite (Hout i Hjr). simpl. rewrite lookup_insert_eq.
    eexists. split; [done|]. simpl.
    pose proof (Z.mod_pos_bound (raw_at w 0) (800 - 0 + 1)).
    pose proof (Z.mod_pos_bound (raw_at (advance 1 w) 0) (500 - 0 + 1)).
    pose proof (Z.mod_pos_bound (raw_at (advance 1 (advance 1 w)) 0) (100 - 70 + 1)).
    split_and!; try done; lia.
Qed.

(** ** Sampling without replacement *)

Lemma swap_out_Permutation (l : list Z) j a b :
  l !! j = Some a → a :: <[j := b]> l ≡ₚ b :: l.
Proof.
  revert j. induction l as [|c l IH]; intros [|j] Hj; try done; simpl in *.
  - injection Hj as ->. apply Permutation_swap.
  - rewrite Permutation_swap, (IH j Hj). apply Permutation_swap.
Qed.

(** One pick of the pool algorithm splits the pool into the picked item and
    the pool that remains. *)
Lemma pool_pick_Permutation (pool : list Z) j picked moved :
  pool !! j = Some picked → last pool = Some moved →
  picked :: take (length pool - 1) (<[j := moved]> pool) ≡ₚ pool.
Proof.
  intros Hj Hl. apply last_Some in Hl as [init ->].
  rewrite length_app. simpl.
  replace (length init + 1 - 1)%nat with (length init) by lia.
  destruct (decide (j < length init)%nat) as [Hlt|Hge].
  - rewrite insert_app_l by done.
    rewrite take_app_length' by (by rewrite length_insert).
    rewrite lookup_app_l in Hj by done.
    rewrite (swap_out_Permutation init j picked moved Hj).
    apply Permutation_cons_append.
  - assert (j = length init) as ->.
    { apply lookup_lt_Some in Hj. rewrite length_app in Hj. simpl in Hj. lia. }
    rewrite list_lookup_middle in Hj by done. injection Hj as <-.
    rewrite list_insert_id by (by apply list_lookup_middle).
    rewrite take_app_length. apply Permutation_cons_append.
Qed.

Lemma sample_pool_spec k : ∀ pool w,
  (k ≤ length pool)%nat → NoDup pool →
  ∃ res w', sample_pool pool k w = inr (res, w') ∧
            length res = k ∧ NoDup res ∧ (∀ v, v ∈ res → v ∈ pool) ∧
            nodes w' = nodes w ∧ G w' = G w ∧
            pos (random w') = (k + pos (random w))%nat.
Proof.
  induction k as [|k IH]; intros pool w Hk Hnd.
  { exists [], w. split_and!; try done; [apply NoDup_nil_2|].
    intros v Hv. by apply not_elem_of_nil in Hv. }
  simpl. rewrite bind_run, randint_run by lia.
  set (j := Z.to_nat (0 + raw_at w 0 mod (Z.of_nat (length pool) - 1 - 0 + 1))).
  assert (Hj : (j < length pool)%nat).
  { unfold j. pose proof (Z.mod_pos_bound (raw_at w 0)
                            (Z.of_nat (length pool) - 1 - 0 + 1)). lia. }
  destruct (lookup_lt_is_Some_2 pool j Hj) as [picked Hp]. rewrite Hp.
  destruct (last pool) as [moved|] eqn:Hl.
  2:{ apply last_None in Hl. subst. simpl in Hj. lia. }
  pose proof (pool_pick_Permutation pool j picked moved Hp Hl) as Hperm.
  set (pool' := take (length pool - 1) (<[j:=moved]> pool)) in *.
  assert (Hnd' : NoDup (picked :: pool')) by (by rewrite Hperm).
  apply NoDup_cons in Hnd' as [Hfresh Hnd'].
  destruct (IH pool' (advance 1 w)) as (rest & w' & Hrun & Hlen & Hndr & Hsub & Hn & HG & Hpos).
  { apply Permutation_length in Hperm. simpl in Hperm. lia. }
  { done. }
  exists (picked :: rest), w'. rewrite bind_run, Hrun.
  split; [done|]. split; [simpl; lia|]. split; [|split; [|split_and!]].
  - apply NoDup_cons. split; [|done]. intros Hin. by apply Hfresh, Hsub.
  - intros v Hv. rewrite <- Hperm. apply elem_of_cons in Hv as [->|Hv].
    + apply list_elem_of_here.
    + by apply list_elem_of_further, Hsub.
  - by rewrite Hn.
  - by rewrite HG.
  - rewrite Hpos. simpl. lia.
Qed.

(** ** Selfish assignment *)

Lemma update_node_run i f w n :
  nodes w !! i = Some n →
  update_node i f w = inr (tt, with_nodes (<[i := f n]> (nodes w)) w).
Proof. intros Hn. unfold update_node. rewrite bind_run. unfold node_at. by rewrite Hn. Qed.

Lemma mark_selfish_spec sns : ∀ w,
  (∀ sn, sn ∈ sns → is_Some (nodes w !! sn)) →
  ∃ w', mark_selfish sns w = inr (tt, w') ∧
        G w' = G w ∧
        (∀ i, nodes w !! i = None → nodes w' !! i = None) ∧
        ∀ i n, nodes w !! i = Some n →
               ∃ n', nodes w' !! i = Some n' ∧
                     x n' = x n ∧ y n' = y n ∧ power n' = power n ∧
                     (i ∈ sns → selfish n' = true ∧ 20 ≤ trust n' ≤ 60) ∧
                     (i ∉ sns → n' = n).
Proof.
  induction sns as [|sn rest IH]; intros w Hall.
  { exists w. split_and!; try done. intros i n Hn. exists n.
    split_and!; try done. intros Hi. by apply not_elem_of_nil in Hi. }
  destruct (Hall sn) as [n0 Hn0]; [apply list_elem_of_here|].
  simpl. rewrite bind_run, (update_node_run _ _ _ _ Hn0).
  rewrite bind_run, randint_run by lia.
  rewrite bind_run. erewrite update_node_run by (simpl; apply lookup_insert_eq).
  set (t := 20 + _ mod _).
  assert (Ht : 20 ≤ t ≤ 60).
  { unfold t. match goal with |- context [?a mod ?b] =>
      pose proof (Z.mod_pos_bound a b) end. lia. }
  clearbody t. simpl. rewrite insert_insert_eq.
  set (marked := set_trust t (set_selfish true n0)).
  match goal with |- context [mark_selfish rest ?w1] => set (w3 := w1) end.
  destruct (IH w3) as (w' & Hrun & HG & Hnone & Hsome).
  { intros s Hs. simpl. destruct (decide (s = sn)) as [->|Hne].
    - rewrite lookup_insert_eq. eauto.
    - rewrite lookup_insert_ne by done. apply Hall. by apply list_elem_of_further. }
  exists w'. split; [done|]. split; [by rewrite HG|]. split.
  - intros i Hi. apply Hnone. simpl. rewrite lookup_insert_ne; [done|].
    intros ->. congruence.
  - intros i n Hn. destruct (decide (i = sn)) as [->|Hne].
    + assert (n = n0) as -> by congruence.
      destruct (Hsome sn marked) as (n' & Hn' & Hx & Hy & Hp & Hin & Hout).
      { simpl. apply lookup_insert_eq. }
      exists n'. split_and!; try done.
      * intros _. destruct (decide (sn ∈ rest)) as [Hr|Hr]; [by apply Hin|].
        rewrite (Hout Hr). done.
      * intros Hnot. exfalso. apply Hnot, list_elem_of_here.
    + destruct (Hsome i n) as (n' & Hn' & Hx & Hy & Hp & Hin & Hout).
      { simpl. by rewrite lookup_insert_ne. }
      exists n'. split_and!; try done.
      * intros Hi. apply Hin. apply elem_of_cons in Hi as [->|Hi]; done.
      * intros Hi. apply Hout. intros Hr. apply Hi. by apply list_elem_of_further.
Qed.

Lemma keys_elem {A} (m : gmap Z A) i : i ∈ keys m ↔ is_Some (m !! i).
Proof.
  unfold keys. rewrite list_elem_of_fmap. split.
  - intros [[j a] [-> Hin]]. apply elem_of_map_to_list in Hin. eauto.
  - intros [a Ha]. exists (i, a). split; [done | by apply elem_of_map_to_list].
Qed.

Lemma keys_length {A} (m : gmap Z A) : length (keys m) = size m.
Proof. unfold keys. by rewrite length_fmap, length_map_to_list. Qed.

(** The assignment succeeds whenever the count it computes is between 0 and
    the number of nodes. *)
Lemma assign_selfish_spec num_nodes selfish_ratio w :
  0 ≤ int_div100 (num_nodes * selfish_ratio) ≤ Z.of_nat (size (nodes w)) →
  ∃ sns w', assign_selfish num_nodes selfish_ratio w = inr (sns, w') ∧
            Z.of_nat (length sns) = int_div100 (num_nodes * selfish_ratio) ∧
            NoDup sns ∧
            (∀ sn, sn ∈ sns → is_Some (nodes w !! sn)) ∧
            G w' = G w ∧
            (∀ i, nodes w !! i = None → nodes w' !! i = None) ∧
            ∀ i n, nodes w !! i = Some n →
                   ∃ n', nodes w' !! i = Some n' ∧
                         x n' = x n ∧ y n' = y n ∧ power n' = power n ∧
                         (i ∈ sns → selfish n' = true ∧ 20 ≤ trust n' ≤ 60) ∧
                         (i ∉ sns → n' = n).
Proof.
  intros Hk. unfold assign_selfish, sample. rewrite bind_run, keys_length.
  destruct (Z.leb_spec 0 (int_div100 (num_nodes * selfish_ratio))); [|lia].
  destruct (Z.leb_spec (int_div100 (num_nodes * selfish_ratio))
                       (Z.of_nat (size (nodes w)))); [|lia].
  simpl.
  destruct (sample_pool_spec (Z.to_nat (int_div100 (num_nodes * selfish_ratio)))
              (keys (nodes w)) w)
    as (sns & w1 & Hrun & Hlen & Hnd & Hsub & Hn & HG & _).
  { rewrite keys_length. lia. }
  { apply NoDup_fst_map_to_list. }
  rewrite Hrun, bind_run.
  destruct (mark_selfish_spec sns w1) as (w' & Hrun' & HG' & Hnone & Hsome).
  { intros sn Hsn. rewrite Hn. by apply keys_elem, Hsub. }
  rewrite Hrun'. exists sns, w'. split; [done|].
  split; [lia|]. split; [done|]. split.
  { intros sn Hsn. by apply keys_elem, Hsub. }
  rewrite Hn in Hnone, Hsome. split; [congruence | done].
Qed.

(** When no node was selfish before, the selfish nodes afterwards are the
    sampled ones. *)
Lemma count_selfish_marked (m m' : gmap Z Node) (sns : list Z) :
  NoDup sns →
  (∀ i, i ∈ sns → ∃ n, m' !! i = Some n ∧ selfish n = true) →
  (∀ i n, m' !! i = Some n → selfish n = true → i ∈ sns) →
  count_selfish m' = length sns.
Proof.
  intros Hnd Hin Hout. unfold count_selfish.
  rewrite <- size_dom, <- (size_list_to_set (C := gset Z) sns Hnd). f_equal.
  apply set_eq. intros i. rewrite elem_of_dom, elem_of_list_to_set. split.
  - intros [n Hn]. apply map_lookup_filter_Some in Hn as [Hn Hs]. by eapply Hout.
  - intros Hi. destruct (Hin i Hi) as (n & Hn & Hs). exists n.
    by apply map_lookup_filter_Some.
Qed.

(** The mapping that the generator makes from the empty one has the keys
    [0 .. num_nodes - 1]. *)
Lemma generated_keys num_nodes w0 w1 i :
  nodes w0 = ∅ → generate_nodes (range num_nodes) w0 = inr (tt, w1) →
  is_Some (nodes w1 !! i) ↔ 0 ≤ i < num_nodes.
Proof.
  intros H0 Hgen.
  destruct (generate_nodes_spec (range num_nodes) w0) as (w' & Hrun & _ & _ & Hout & Hin).
  assert (w' = w1) as -> by congruence.
  unfold range in *. destruct (decide (i ∈ seqZ 0 num_nodes)) as [Hi|Hi].
  - destruct (Hin i Hi) as (n & Hn & _). apply elem_of_seqZ in Hi.
    split; [lia | eauto].
  - rewrite (Hout i Hi), H0, lookup_empty. rewrite elem_of_seqZ in Hi.
    split; [by intros [? ?] | lia].
Qed.

Lemma generated_size num_nodes w0 w1 :
  nodes w0 = ∅ → generate_nodes (range num_nodes) w0 = inr (tt, w1) →
  size (nodes w1) = Z.to_nat num_nodes.
Proof.
  intros H0 Hgen. rewrite <- size_dom.
  rewrite <- (length_seqZ 0 num_nodes).
  rewrite <- (size_list_to_set (C := gset Z) (seqZ 0 num_nodes)) by apply NoDup_seqZ.
  f_equal. apply set_eq. intros i.
  rewrite elem_of_dom, elem_of_list_to_set, elem_of_seqZ.
  rewrite (generated_keys num_nodes w0 w1 i H0 Hgen). lia.
Qed.

Lemma int_div100_floor a : 0 ≤ a → int_div100 a = a / 100.
Proof. intros Ha. unfold int_div100. apply Z.quot_div_nonneg; lia. Qed.

Lemma selfish_count_bound n r : 0 ≤ n → 0 ≤ r ≤ 100 → 0 ≤ n * r / 100 ≤ n.
Proof.
  intros Hn Hr. split.
  - apply Z.div_pos; nia.
  - apply Z.div_le_upper_bound; nia.
Qed.

(** The assignment on freshly generated nodes, for any count that fits. *)
Lemma assign_generated n r w0 w1 :
  0 ≤ n → 0 ≤ r ≤ 100 → nodes w0 = ∅ →
  generate_nodes (range n) w0 = inr (tt, w1) →
  ∃ sns w2, assign_selfish n r w1 = inr (sns, w2) ∧
            Z.of_nat (length sns) = n * r / 100 ∧
            NoDup sns ∧
            (∀ sn, sn ∈ sns → 0 ≤ sn < n) ∧
            (∀ i, ¬ 0 ≤ i < n → nodes w2 !! i = None) ∧
            ∀ i, 0 ≤ i < n →
                 ∃ node, nodes w2 !! i = Some node ∧
                         (i ∈ sns → selfish node = true ∧ 20 ≤ trust node ≤ 60) ∧
                         (i ∉ sns → selfish node = false ∧ trust node = 100).
Proof.
  intros Hn Hr H0 Hgen.
  pose proof (selfish_count_bound n r Hn Hr) as Hb.
  assert (Hnr : 0 ≤ n * r) by nia.
  destruct (assign_selfish_spec n r w1)
    as (sns & w2 & Hrun & Hlen & Hnd & Hsub & _ & Hnone & Hsome).
  { rewrite (generated_size n w0 w1 H0 Hgen), int_div100_floor by done. lia. }
  exists sns, w2. rewrite int_div100_floor in Hlen by done.
  split_and!; try done.
  - intros sn Hsn. by apply (generated_keys n w0 w1 sn H0 Hgen), Hsub.
  - intros i Hi. apply Hnone.
    destruct (nodes w1 !! i) as [m|] eqn:Hm; [|done].
    exfalso. apply Hi. apply (generated_keys n w0 w1 i H0 Hgen). eauto.
  - intros i Hi.
    destruct (generate_nodes_spec (range n) w0) as (w' & Hrun' & _ & _ & _ & Hin).
    assert (w' = w1) as -> by congruence.
    destruct (Hin i) as (m & Hm & Ht & Hs & _).
    { unfold range. apply elem_of_seqZ. lia. }
    destruct (Hsome i m Hm) as (m' & Hm' & _ & _ & _ & Hyes & Hno).
    exists m'. split_and!; try done. intros Hout. by rewrite (Hno Hout).
Qed.

(** C6: for [num_nodes] in 5..50 and [selfish_ratio] in 0..80, Selfish
    Assignment on the generated nodes returns
    [floor(num_nodes * selfish_ratio / 100)] distinct ids of
    [0 .. num_nodes - 1]; exactly these nodes are selfish afterwards, each
    with a trust of 20 to 60, and every other node is not selfish and has
    trust 100; with a count of 0 that is every node. *)
Theorem selfish_assignment n r w0 w1 :
  5 ≤ n ≤ 50 → 0 ≤ r ≤ 80 → nodes w0 = ∅ →
  generate_nodes (range n) w0 = inr (tt, w1) →
  ∃ sns w2, assign_selfish n r w1 = inr (sns, w2) ∧
            Z.of_nat (length sns) = n * r / 100 ∧
            NoDup sns ∧
            (∀ sn, sn ∈ sns → 0 ≤ sn < n) ∧
            (∀ i, 0 ≤ i < n →
                  ∃ node, nodes w2 !! i = Some node ∧
                          (i ∈ sns → selfish node = true ∧ 20 ≤ trust node ≤ 60) ∧
                          (i ∉ sns → selfish node = false ∧ trust node = 100)) ∧
            (n * r / 100 = 0 →
             ∀ i node, nodes w2 !! i = Some node →
                       selfish node = false ∧ trust node = 100).
Proof.
  intros Hn Hr H0 Hgen.
  destruct (assign_generated n r w0 w1) as (sns & w2 & Hrun & Hlen & Hnd & Hsub & Hnone & Hsome);
    [lia | lia | done | done |].
  exists sns, w2. split_and!; try done.
  intros Hz i node Hnode. rewrite Hz in Hlen.
  destruct sns; [|simpl in Hlen; lia].
  destruct (decide (0 ≤ i < n)) as [Hi|Hi].
  - destruct (Hsome i Hi) as (m & Hm & _ & Hno).
    assert (m = node) as -> by congruence. apply Hno, not_elem_of_nil.
  - rewrite (Hnone i Hi) in Hnode. done.
Qed.

(** C7, as amended: for [num_nodes >= 0] and [selfish_ratio] in 0..100,
    Selfish Assignment on the generated nodes succeeds and leaves exactly
    [floor(num_nodes * selfish_ratio / 100)] nodes selfish, namely the
    distinct sampled ids. *)
Theorem selfish_count_floor n r w0 w1 :
  0 ≤ n → 0 ≤ r ≤ 100 → nodes w0 = ∅ →
  generate_nodes (range n) w0 = inr (tt, w1) →
  ∃ sns w2, assign_selfish n r w1 = inr (sns, w2) ∧
            Z.of_nat (count_selfish (nodes w2)) = n * r / 100 ∧
            NoDup sns ∧
            ∀ i node, nodes w2 !! i = Some node →
                      (selfish node = true ↔ i ∈ sns).
Proof.
  intros Hn Hr H0 Hgen.
  destruct (assign_generated n r w0 w1 Hn Hr H0 Hgen)
    as (sns & w2 & Hrun & Hlen & Hnd & Hsub & Hnone & Hsome).
  assert (Hiff : ∀ i node, nodes w2 !! i = Some node →
                           (selfish node = true ↔ i ∈ sns)).
  { intros i node Hnode. destruct (decide (0 ≤ i < n)) as [Hi|Hi].
    - destruct (Hsome i Hi) as (m & Hm & Hyes & Hno).
      assert (m = node) as -> by congruence.
      split; [|intros Hin; by apply Hyes in Hin as [? _]].
      intros Hs. destruct (decide (i ∈ sns)) as [|Hout]; [done|].
      apply Hno in Hout as [Hf _]. congruence.
    - rewrite (Hnone i Hi) in Hnode. done. }
  exists sns, w2. split_and!; try done.
  rewrite <- Hlen. f_equal.
  apply (count_selfish_marked (nodes w1) (nodes w2) sns Hnd).
  - intros i Hi. destruct (Hsome i (Hsub i Hi)) as (m & Hm & Hyes & _).
    exists m. split; [done|]. by apply Hyes.
  - intros i m Hm Hs. by apply (Hiff i m Hm).
Qed.

(** C10: for [num_nodes] in 5..50 and [selfish_ratio] in 0..80 the count
    [int(num_nodes * selfish_ratio / 100)] is between 0 and [num_nodes], so
    on the generated nodes neither the sampling nor the assignment raises. *)
Theorem selfish_sampling_cannot_fail n r w0 w1 :
  5 ≤ n ≤ 50 → 0 ≤ r ≤ 80 → nodes w0 = ∅ →
  generate_nodes (range n) w0 = inr (tt, w1) →
  0 ≤ int_div100 (n * r) ≤ n ∧
  Z.of_nat (length (keys (nodes w1))) = n ∧
  (∃ sns w', sample (keys (nodes w1)) (int_div100 (n * r)) w1 = inr (sns, w')) ∧
  ∃ sns w2, assign_selfish n r w1 = inr (sns, w2).
Proof.
  intros Hn Hr H0 Hgen.
  assert (Hnr : 0 ≤ n * r) by nia.
  pose proof (selfish_count_bound n r ltac:(lia) ltac:(lia)) as Hb.
  rewrite int_div100_floor by done.
  assert (Hlen : Z.of_nat (length (keys (nodes w1))) = n).
  { rewrite keys_length, (generated_size n w0 w1 H0 Hgen). lia. }
  split; [done|]. split; [done|]. split.
  - unfold sample. rewrite Hlen.
    destruct (Z.leb_spec 0 (n * r / 100)); [|lia].
    destruct (Z.leb_spec (n * r / 100) n); [|lia]. simpl.
    destruct (sample_pool_spec (Z.to_nat (n * r / 100)) (keys (nodes w1)) w1)
      as (sns & w' & Hrun & _); [lia | apply NoDup_fst_map_to_list | eauto].
  - destruct (assign_generated n r w0 w1) as (sns & w2 & Hrun & _);
      [lia | lia | done | done | eauto].
Qed.

(** C9: two runs on the same random source whose settings differ only in
    the mobility flag give the same result: the same exception, or the same
    end points, route and status with the same node mapping and graph. *)
Theorem mobility_has_no_effect cost_lt c1 c2 rng :
  same_but_mobility c1 c2 → run cost_lt c1 rng = run cost_lt c2 rng.
Proof.
  destruct c1, c2. unfold same_but_mobility. simpl.
  intros (-> & -> & -> & -> & ->). reflexivity.
Qed.

(** * Concrete runs *)

Lemma gen5_generated : generate_nodes (range 5) fresh = inr (tt, gen5).
Proof. vm_compute. reflexivity. Qed.

Lemma line_not_connected_0_3 : ¬ connected (G line_start) 0 3.
Proof.
  intros Hc. apply (shortest_path_connected fixed_cost_lt) in Hc as [p Hp].
  vm_compute in Hp. discriminate.
Qed.

Lemma send_packet_drop_witness :
  ∃ w', send_packet fixed_cost_lt 0 2 line_start =
          inr ((Some [0; 1; 2], "Dropped by selfish node"%string), w') ∧
        nodes w' !! 1 = Some (mkNode 100 0 80 35 true) ∧
        nodes w' !! 2 = nodes line_start !! 2 ∧
        random w' = mkRandom (raw (random line_start)) 2.
Proof.
  destruct (send_packet_drop fixed_cost_lt 0 2 line_start [0] 1 [2] line_after_0
              (mkNode 100 0 80 40 true))
    as (w' & Hsend & _ & Hhop & Hpost & _ & Hrng);
    [vm_compute; reflexivity | vm_compute; reflexivity
     | reflexivity | reflexivity | reflexivity |].
  exists w'. split; [exact Hsend|]. split; [exact Hhop|].
  split; [apply Hpost, list_elem_of_here | exact Hrng].
Defined.

Lemma send_packet_delivered_witness :
  ∃ w', send_packet fixed_cost_lt 3 4 line_start =
          inr ((Some [3; 4], "Delivered"%string), w') ∧
        pos (random w') = 2%nat.
Proof.
  destruct (send_packet_delivered fixed_cost_lt 3 4 line_start [3; 4])
    as (w' & Hsend & Hpos & _).
  - vm_compute. reflexivity.
  - intros hop Hhop. apply elem_of_cons in Hhop as [->|Hhop].
    { eexists. split; reflexivity. }
    apply list_elem_of_singleton in Hhop as ->. eexists. split; reflexivity.
  - exists w'. split; [exact Hsend | exact Hpos].
Defined.

Lemma find_route_no_route_or_self_witness :
  find_route fixed_cost_lt 0 3 line_start = inr (None, line_start) ∧
  find_route fixed_cost_lt 5 5 line_start = inr (None, line_start) ∧
  find_route fixed_cost_lt 0 0 line_start = inr (Some [0], line_start).
Proof.
  pose proof (find_route_no_route_or_self fixed_cost_lt 150 false false
                (mkWorld line_nodes ∅ (replay [7; 0; 3])) line_start) as Hcases.
  split; [|split].
  - apply (Hcases 0 3); [reflexivity | reflexivity |].
    left. intros Hrtc. apply line_not_connected_0_3.
    split_and!; [apply elem_of_dom; vm_compute; eauto.. | exact Hrtc].
  - apply (Hcases 5 5); [reflexivity | reflexivity |].
    right. split; [reflexivity|]. intros [v [a Ha]]. vm_compute in Ha. discriminate.
  - apply (Hcases 0 0); [reflexivity | reflexivity | reflexivity |].
    exists 1. vm_compute. eauto.
Defined.

Lemma send_packet_no_path_witness :
  send_packet fixed_cost_lt 0 3 line_start =
  inr ((None, "No Path Found"%string), line_start).
Proof. apply send_packet_no_path, line_not_connected_0_3. Defined.

Lemma send_packet_frame_witness :
  G line_dropped = G line_start ∧
  dom (nodes line_dropped) = dom (nodes line_start) ∧
  ∀ i n, nodes line_start !! i = Some n →
         ∃ n', nodes line_dropped !! i = Some n' ∧
               x n' = x n ∧ y n' = y n ∧ selfish n' = selfish n ∧
               (i ∉ [0; 1; 2] → n' = n).
Proof.
  apply (send_packet_frame fixed_cost_lt 0 2 line_start (Some [0; 1; 2])
           "Dropped by selfish node"%string line_dropped).
  vm_compute. reflexivity.
Defined.

Lemma selfish_assignment_witness :
  ∃ sns w2, assign_selfish 5 40 gen5 = inr (sns, w2) ∧
            Z.of_nat (length sns) = 2 ∧ NoDup sns.
Proof.
  destruct (selfish_assignment 5 40 fresh gen5)
    as (sns & w2 & Hrun & Hlen & Hnd & _);
    [lia | lia | reflexivity | vm_compute; reflexivity |].
  exists sns, w2. split; [exact Hrun|]. split; [exact Hlen | exact Hnd].
Defined.

(** With five nodes and a ratio of 15 the script marks [int(0.75) = 0]
    nodes, where rounding to the nearest integer gives 1. *)
Lemma selfish_count_not_rounded :
  generate_nodes (range 5) fresh = inr (tt, gen5) ∧
  assign_selfish 5 15 gen5 = inr ([], gen5) ∧
  count_selfish (nodes gen5) = 0%nat ∧
  round_div (5 * 15) 100 = 1 ∧
  Z.of_nat (count_selfish (nodes gen5)) ≠ round_div (5 * 15) 100.
Proof.
  split; [exact gen5_generated|].
  split; [vm_compute; reflexivity|].
  split; [vm_compute; reflexivity|].
  split; [reflexivity|]. vm_compute. discriminate.
Qed.

Lemma selfish_count_floor_witness :
  ∃ sns w2, assign_selfish 5 15 gen5 = inr (sns, w2) ∧
            Z.of_nat (count_selfish (nodes w2)) = 0 ∧ NoDup sns.
Proof.
  destruct (selfish_count_floor 5 15 fresh gen5)
    as (sns & w2 & Hrun & Hcount & Hnd & _);
    [lia | lia | reflexivity | vm_compute; reflexivity |].
  exists sns, w2. split; [exact Hrun|]. split; [exact Hcount | exact Hnd].
Defined.

Lemma selfish_sampling_cannot_fail_witness :
  0 ≤ int_div100 (5 * 80) ≤ 5 ∧
  ∃ sns w2, assign_selfish 5 80 gen5 = inr (sns, w2).
Proof.
  destruct (selfish_sampling_cannot_fail 5 80 fresh gen5)
    as (Hbound & _ & _ & Hok);
    [lia | lia | reflexivity | vm_compute; reflexivity |].
  split; [exact Hbound | exact Hok].
Defined.

Lemma mobility_has_no_effect_witness :
  run fixed_cost_lt (mkConfig 5 150 40 true true false) (random fresh) =
  run fixed_cost_lt (mkConfig 5 150 40 false true false) (random fresh).
Proof.
  apply (mobility_has_no_effect fixed_cost_lt
           (mkConfig 5 150 40 true true false)
           (mkConfig 5 150 40 false true false) (random fresh)).
  unfold same_but_mobility. simpl. repeat split; reflexivity.
Defined.

(** The scenario of two nodes at [(0, 0)] and [(100, 0)] with range 150 and
    no bonus: one link of weight 100 and capacity 67, and the route
    [[0; 1]]. *)
Example two_nodes_link :
  ∃ w, build_links 150 false false two_nodes = inr (tt, w) ∧
       edge (G w) 0 1 = Some (mkEdge (Sqrt (100 * 100)) 67) ∧
       find_route fixed_cost_lt 0 1 w = inr (Some [0; 1], w).
Proof. eexists. split; [reflexivity|]. split; vm_compute; reflexivity. Qed.

(** Three nodes in a line, the outer two out of range of each other: the
    route takes both hops. *)
Example line_route :
  edge (G line_start) 0 2 = None ∧
  shortest_path fixed_cost_lt (G line_start) 0 2 = inr [0; 1; 2].
Proof. split; vm_compute; reflexivity. Qed.

(** A run of the whole script on five nodes. *)
Example run_five :
  ∃ o w, run fixed_cost_lt (mkConfig 5 150 40 true true false) (random fresh)
         = inr (o, w) ∧
         size (nodes w) = 5%nat ∧ count_selfish (nodes w) = 2%nat.
Proof. eexists _, _. split; [vm_compute; reflexivity|]. split; vm_compute; reflexivity. Qed.

(** * Further properties *)

(** ** Node generation and selfish assignment *)

(** X1: from an empty mapping the generator never raises; it makes exactly
    the nodes [0 .. num_nodes - 1] (none when [num_nodes <= 0]), each with
    [x] in 0..800, [y] in 0..500, [power] in 70..100, trust 100 and not
    selfish, reads three raw values per node and leaves the graph alone. *)
Theorem node_generator n w0 :
  nodes w0 = ∅ →
  ∃ w1, generate_nodes (range n) w0 = inr (tt, w1) ∧
        G w1 = G w0 ∧
        pos (random w1) = (3 * Z.to_nat n + pos (random w0))%nat ∧
        size (nodes w1) = Z.to_nat n ∧
        (∀ i, is_Some (nodes w1 !! i) ↔ 0 ≤ i < n) ∧
        ∀ i node, nodes w1 !! i = Some node →
                  trust node = 100 ∧ selfish node = false ∧
                  0 ≤ x node ≤ 800 ∧ 0 ≤ y node ≤ 500 ∧ 70 ≤ power node ≤ 100.
Proof.
  intros H0.
  destruct (generate_nodes_spec (range n) w0) as (w1 & Hrun & HG & Hpos & Hout & Hin).
  exists w1. split; [done|]. split; [done|].
  split; [by rewrite Hpos; unfold range; rewrite length_seqZ|].
  split; [by eapply generated_size|].
  split; [intros i; by eapply generated_keys|].
  intros i node Hnode. destruct (decide (i ∈ range n)) as [Hi|Hi].
  - destruct (Hin i Hi) as (m & Hm & ?). by assert (m = node) as -> by congruence.
  - rewrite (Hout i Hi), H0, lookup_empty in Hnode. done.
Qed.

Lemma node_generator_witness :
  ∃ w1, generate_nodes (range 5) fresh = inr (tt, w1) ∧
        pos (random w1) = 15%nat ∧ size (nodes w1) = 5%nat.
Proof.
  destruct (node_generator 5 fresh) as (w1 & Hrun & _ & Hpos & Hsize & _);
    [reflexivity|].
  exists w1. split; [exact Hrun|]. split; [exact Hpos | exact Hsize].
Defined.









(** ** The links *)

Lemma built_edge tx mr mc w w' a b :
  G w = ∅ → build_links tx mr mc w = inr (tt, w') →
  edge (G w') a b = wanted (nodes w) tx mr mc a b.
Proof.
  intros HG Hb. rewrite build_links_run in Hb. injection Hb as <-. simpl.
  rewrite edge_link_all, HG. destruct (wanted _ _ _ _ _ _); [done|].
  unfold edge. by rewrite lookup_empty.
Qed.

Lemma built_no_isolated tx mr mc w w' :
  G w = ∅ → build_links tx mr mc w = inr (tt, w') → no_isolated (G w').
Proof.
  intros HG Hb. rewrite build_links_run in Hb. injection Hb as <-. simpl.
  apply no_isolated_link_all. rewrite HG. apply no_isolated_empty.
Qed.

Lemma wanted_Some m tx mr mc i j a :
  wanted m tx mr mc i j = Some a ↔
  i ≠ j ∧ ∃ ni nj, m !! i = Some ni ∧ m !! j = Some nj ∧
                   dist_le (dist (x ni, y ni) (x nj, y nj)) tx = true ∧
                   a = mkEdge (dist (x ni, y ni) (x nj, y nj))
                              (link_capacity (dist (x ni, y ni) (x nj, y nj)) mr mc).
Proof.
  unfold wanted, link_attr. destruct (decide (i ≠ j)) as [Hij|Hij].
  - destruct (m !! i) as [ni|]; simpl.
    2:{ split; [done | by intros (_ & ? & ? & ? & _)]. }
    destruct (m !! j) as [nj|]; simpl.
    2:{ split; [done | by intros (_ & ? & ? & _ & ? & _)]. }
    destruct (dist_le _ _) eqn:Hle; split.
    + intros [= <-]. split; [done|]. by exists ni, nj.
    + intros (_ & ? & ? & [= <-] & [= <-] & _ & ->). done.
    + done.
    + intros (_ & ? & ? & [= <-] & [= <-] & Hle' & _). congruence.
  - split; [done | tauto].
Qed.

(** After the Topology Builder every node of the graph is a key of [nodes]. *)
Lemma built_dom_nodes tx mr mc w w' i :
  G w = ∅ → build_links tx mr mc w = inr (tt, w') →
  i ∈ dom (G w') → is_Some (nodes w' !! i).
Proof.
  intros HG Hb Hi.
  destruct (built_no_isolated tx mr mc w w' HG Hb i Hi) as [j [a Ha]].
  rewrite (built_edge tx mr mc w w') in Ha by done.
  apply wanted_Some in Ha as (_ & ni & _ & Hni & _).
  rewrite build_links_run in Hb. injection Hb as <-. simpl. eauto.
Qed.

(** X4: the graph that the Topology Builder makes from the empty graph is
    undirected and has no self-loop, and a link joins two distinct ids of
    the node mapping. *)
Theorem links_undirected tx mr mc w w' :
  G w = ∅ → build_links tx mr mc w = inr (tt, w') →
  ∀ i j, edge (G w') i j = edge (G w') j i ∧
         edge (G w') i i = None ∧
         (is_Some (edge (G w') i j) →
          i ≠ j ∧ is_Some (nodes w !! i) ∧ is_Some (nodes w !! j)).
Proof.
  intros HG Hb i j. rewrite !(built_edge tx mr mc w w') by done.
  split; [apply wanted_sym|]. split.
  - unfold wanted. by rewrite decide_False by tauto.
  - intros [a Ha]. apply wanted_Some in Ha as (Hij & ni & nj & Hi & Hj & _). eauto.
Qed.

Lemma links_undirected_witness :
  edge (G line_start) 0 1 = edge (G line_start) 1 0 ∧
  edge (G line_start) 0 0 = None ∧
  (is_Some (edge (G line_start) 0 1) →
   0 ≠ 1 ∧ is_Some (nodes line_bare !! 0) ∧ is_Some (nodes line_bare !! 1)).
Proof.
  apply (links_undirected 150 false false line_bare line_start);
    [reflexivity | reflexivity].
Defined.

(** X5: the nodes of the built graph are the ids that have a link; they are
    ids of the node mapping, and a node with no other node in range is not a
    node of the graph. *)
Theorem graph_nodes_have_links tx mr mc w w' :
  G w = ∅ → build_links tx mr mc w = inr (tt, w') →
  ∀ i, (i ∈ dom (G w') ↔ ∃ j, adjacent (G w') i j) ∧
       (i ∈ dom (G w') → i ∈ dom (nodes w)).
Proof.
  intros HG Hb i.
  assert (Hiff : i ∈ dom (G w') ↔ ∃ j, adjacent (G w') i j).
  { split; [apply (built_no_isolated tx mr mc w w' HG Hb)|].
    intros [j Hj]. by eapply adjacent_dom_l. }
  split; [done|]. rewrite Hiff. intros [j [a Ha]].
  rewrite (built_edge tx mr mc w w') in Ha by done.
  apply wanted_Some in Ha as (_ & ni & _ & Hi & _). apply elem_of_dom. eauto.
Qed.

Lemma graph_nodes_have_links_witness :
  (5 ∈ dom (G line_start) ↔ ∃ j, adjacent (G line_start) 5 j) ∧
  (5 ∈ dom (G line_start) → 5 ∈ dom (nodes line_bare)).
Proof.
  apply (graph_nodes_have_links 150 false false line_bare line_start);
    [reflexivity | reflexivity].
Defined.

(** X6: the two flags change no link and no weight: built from the same
    nodes and range, the graph with flags has the links of the graph without,
    each with 20 more capacity for multi-radio and 15 more for
    multi-channel. *)
Theorem flags_add_capacity tx mr mc w w0 w1 :
  G w = ∅ →
  build_links tx false false w = inr (tt, w0) →
  build_links tx mr mc w = inr (tt, w1) →
  ∀ i j, edge (G w1) i j =
         (λ a, mkEdge (weight a) (capacity a + bonus mr mc)) <$> edge (G w0) i j.
Proof.
  intros HG H0 H1 i j.
  rewrite (built_edge tx mr mc w w1), (built_edge tx false false w w0) by done.
  unfold wanted. case_decide; [|done].
  destruct (nodes w !! i) as [ni|]; [|done].
  destruct (nodes w !! j) as [nj|]; [|done]. simpl.
  unfold link_attr. destruct (dist_le _ _); [|done]. simpl.
  rewrite !link_capacity_eq. unfold bonus. do 2 f_equal. lia.
Qed.

Lemma flags_add_capacity_witness :
  ∃ w0 w1, build_links 150 false false line_bare = inr (tt, w0) ∧
           build_links 150 true true line_bare = inr (tt, w1) ∧
           ∀ i j, edge (G w1) i j =
                  (λ a, mkEdge (weight a) (capacity a + 35)) <$> edge (G w0) i j.
Proof.
  eexists _, _. split; [reflexivity|]. split; [reflexivity|].
  apply (flags_add_capacity 150 true true line_bare); reflexivity.
Defined.

Lemma int_div3_mono d1 d2 :
  radicand d1 ≤ radicand d2 → int_div3 d1 ≤ int_div3 d2.
Proof.
  intros Hle. unfold int_div3.
  apply Z.div_le_mono; [lia | by apply Z.sqrt_le_mono].
Qed.

(** X7: every link of the built graph spans at most the range (which is not
    negative when there is a link), its capacity without the bonus of the
    flags lies between 1 and 100, and of two links the shorter has at least
    the capacity of the longer. *)
Theorem capacity_bounds tx mr mc w w' i j a :
  G w = ∅ → build_links tx mr mc w = inr (tt, w') →
  edge (G w') i j = Some a →
  0 ≤ tx ∧ 0 ≤ radicand (weight a) ≤ tx * tx ∧
  capacity a = Z.max 1 (100 - Z.sqrt (radicand (weight a)) / 3) + bonus mr mc ∧
  1 + bonus mr mc ≤ capacity a ≤ 100 + bonus mr mc ∧
  ∀ k l b, edge (G w') k l = Some b →
           radicand (weight a) ≤ radicand (weight b) → capacity b ≤ capacity a.
Proof.
  intros HG Hb Ha.
  assert (Hshape : ∀ k l b, edge (G w') k l = Some b →
            0 ≤ radicand (weight b) ∧ dist_le (weight b) tx = true ∧
            capacity b = Z.max 1 (100 - int_div3 (weight b)) + bonus mr mc).
  { intros k l b Hkl. rewrite (built_edge tx mr mc w w') in Hkl by done.
    apply wanted_Some in Hkl as (_ & nk & nl & _ & _ & Hle & ->).
    split; [apply (dist_radicand_nonneg (x nk, y nk) (x nl, y nl))|].
    split; [done|]. simpl.
    rewrite link_capacity_eq. unfold bonus. lia. }
  destruct (Hshape i j a Ha) as (Hnn & Hle & Hcap).
  unfold dist_le in Hle. apply andb_true_iff in Hle as [Htx Hle].
  apply Z.leb_le in Htx, Hle.
  assert (Hdiv : 0 ≤ int_div3 (weight a)).
  { unfold int_div3. apply Z.div_pos; [apply Z.sqrt_nonneg | lia]. }
  split_and!; try done; try lia.
  intros k l b Hkl Hshorter. destruct (Hshape k l b Hkl) as (_ & _ & Hcapb).
  pose proof (int_div3_mono _ _ Hshorter). lia.
Qed.

Lemma capacity_bounds_witness :
  0 ≤ 150 ∧ 0 ≤ 10000 ≤ 150 * 150 ∧
  67 = Z.max 1 (100 - Z.sqrt 10000 / 3) + bonus false false ∧
  1 + bonus false false ≤ 67 ≤ 100 + bonus false false ∧
  ∀ k l b, edge (G line_start) k l = Some b →
           10000 ≤ radicand (weight b) → capacity b ≤ 67.
Proof.
  apply (capacity_bounds 150 false false line_bare line_start 0 1
           (mkEdge (Sqrt 10000) 67)); [reflexivity | reflexivity |].
  vm_compute. reflexivity.
Defined.

(** X8: a wider range only adds links: built from the same nodes and flags,
    every link of the graph for the smaller range is a link of the graph for
    the larger one, with the same weight and capacity. *)
Theorem links_grow_with_range tx1 tx2 mr mc w w1 w2 :
  G w = ∅ → tx1 ≤ tx2 →
  build_links tx1 mr mc w = inr (tt, w1) →
  build_links tx2 mr mc w = inr (tt, w2) →
  ∀ i j a, edge (G w1) i j = Some a → edge (G w2) i j = Some a.
Proof.
  intros HG Htx H1 H2 i j a.
  rewrite (built_edge tx1 mr mc w w1), (built_edge tx2 mr mc w w2) by done.
  rewrite !wanted_Some. intros (Hij & ni & nj & Hi & Hj & Hle & ->).
  split; [done|]. exists ni, nj. split_and!; try done.
  unfold dist_le in *. apply andb_true_iff in Hle as [H0 Hle].
  apply Z.leb_le in H0, Hle. apply andb_true_iff.
  split; apply Z.leb_le; [lia | nia].
Qed.

Lemma links_grow_with_range_witness :
  ∃ w1 w2, build_links 100 false false line_bare = inr (tt, w1) ∧
           build_links 150 false false line_bare = inr (tt, w2) ∧
           ∀ i j a, edge (G w1) i j = Some a → edge (G w2) i j = Some a.
Proof.
  eexists _, _. split; [reflexivity|]. split; [reflexivity|].
  apply (links_grow_with_range 100 150 false false line_bare);
    [reflexivity | lia | reflexivity | reflexivity].
Defined.

(** ** The router *)

(** X9: a route that [find_route] returns starts at [src], ends at [dst],
    goes from each node to a linked node, repeats no node, stays within the
    nodes of the graph and so has at most as many nodes as the graph. *)
Theorem route_is_simple_walk cost_lt src dst w route :
  find_route cost_lt src dst w = inr (Some route, w) →
  head route = Some src ∧ last route = Some dst ∧ chain (G w) route ∧
  NoDup route ∧ (∀ v, v ∈ route → v ∈ dom (G w)) ∧
  (1 ≤ length route ≤ size (G w))%nat.
Proof.
  intros Hr. apply find_route_some in Hr as ((Hh & Hl & Hc) & Hnd & Hne & Hdom).
  split_and!; try done.
  - destruct route; [done | simpl; lia].
  - by apply simple_length.
Qed.

Lemma route_is_simple_walk_witness :
  head [0; 1; 2] = Some 0 ∧ last [0; 1; 2] = Some 2 ∧
  chain (G line_start) [0; 1; 2] ∧ NoDup [0; 1; 2] ∧
  (∀ v, v ∈ [0; 1; 2] → v ∈ dom (G line_start)) ∧
  (1 ≤ length [0; 1; 2] ≤ size (G line_start))%nat.
Proof.
  apply (route_is_simple_walk fixed_cost_lt 0 2 line_start [0; 1; 2]).
  vm_compute. reflexivity.
Defined.

(** X10: [find_route] never raises and leaves the world as it is; it returns
    a route exactly when [src] and [dst] are nodes of the graph joined by a
    walk along links. *)
Theorem route_iff_connected cost_lt src dst w :
  ∃ r, find_route cost_lt src dst w = inr (r, w) ∧
       (is_Some r ↔ connected (G w) src dst).
Proof.
  rewrite find_route_run. eexists. split; [done|].
  rewrite (shortest_path_connected cost_lt).
  destruct (shortest_path cost_lt (G w) src dst) as [e|p]; split.
  - by intros [? ?].
  - by intros [? ?].
  - eauto.
  - eauto.
Qed.

Lemma total_cost_nonneg c ws : (∀ d, 0 ≤ c d) → 0 ≤ total_cost c ws.
Proof.
  intros Hc. induction ws as [|d ws IH]; simpl; [done|]. specialize (Hc d). lia.
Qed.






Lemma rtc_adjacent_sym g u v :
  (∀ i j, edge g i j = edge g j i) →
  rtc (adjacent g) u v → rtc (adjacent g) v u.
Proof.
  intros Hsym. induction 1 as [u|u b v Hub _ IH]; [done|].
  eapply rtc_r; [exact IH|]. unfold adjacent in *. by rewrite Hsym.
Qed.

(** X12: on the built graph routes exist in both directions or in neither:
    [find_route] returns a route from [src] to [dst] exactly when it returns
    one from [dst] to [src]. *)
Theorem routes_both_ways cost_lt tx mr mc w0 w src dst :
  G w0 = ∅ → build_links tx mr mc w0 = inr (tt, w) →
  (∃ route, find_route cost_lt src dst w = inr (Some route, w)) ↔
  (∃ route, find_route cost_lt dst src w = inr (Some route, w)).
Proof.
  intros HG Hb.
  assert (Hsym : ∀ i j, edge (G w) i j = edge (G w) j i).
  { intros i j. rewrite !(built_edge tx mr mc w0 w) by done. apply wanted_sym. }
  assert (Hiff : ∀ s t, (∃ route, find_route cost_lt s t w = inr (Some route, w))
                        ↔ connected (G w) s t).
  { intros s t. rewrite find_route_run, (shortest_path_connected cost_lt).
    destruct (shortest_path cost_lt (G w) s t) as [e|p]; split.
    - by intros [? ?].
    - by intros [? ?].
    - eauto.
    - intros _. by exists p. }
  rewrite !Hiff. unfold connected.
  split; intros (? & ? & Hrtc); split_and!; try done; by apply rtc_adjacent_sym.
Qed.

Lemma routes_both_ways_witness :
  (∃ route, find_route fixed_cost_lt 0 2 line_start = inr (Some route, line_start)) ↔
  (∃ route, find_route fixed_cost_lt 2 0 line_start = inr (Some route, line_start)).
Proof.
  apply (routes_both_ways fixed_cost_lt 150 false false line_bare line_start 0 2);
    [reflexivity | reflexivity].
Defined.

(** ** The packet send, in every outcome *)

Lemma visit_inv hop w b w' :
  visit hop w = inr (b, w') →
  ∃ n, nodes w !! hop = Some n ∧
       if b then
         selfish n = true ∧ rolls_drop w = true ∧
         w' = advance 1 (with_nodes (<[hop := set_trust (trust n - 5) n]> (nodes w)) w)
       else
         ∃ d k, 1 ≤ d ≤ 5 ∧ (1 ≤ k ≤ 2)%nat ∧
                (selfish n = true → rolls_drop w = false) ∧
                w' = advance k (with_nodes (<[hop := set_power (power n - d) n]> (nodes w)) w).
Proof.
  intros Hv. destruct (nodes w !! hop) as [n|] eqn:Hn;
    [|by rewrite visit_missing in Hv].
  exists n. split; [done|].
  destruct (selfish n) eqn:Hs; [destruct (rolls_drop w) eqn:Hr|].
  - rewrite (visit_drop hop w n) in Hv by done. by injection Hv as <- <-.
  - rewrite (visit_pass hop w n) in Hv by done. injection Hv as <- <-.
    exists (decay w 1), 2%nat. split; [apply decay_range|]. split; [lia | done].
  - rewrite (visit_honest hop w n) in Hv by done. injection Hv as <- <-.
    exists (decay w 0), 1%nat. split; [apply decay_range|]. split; [lia | done].
Qed.

Lemma visit_present hop w n :
  nodes w !! hop = Some n → ∃ b w', visit hop w = inr (b, w').
Proof.
  intros Hn. destruct (selfish n) eqn:Hs; [destruct (rolls_drop w) eqn:Hr|].
  - rewrite (visit_drop hop w n) by done. eauto.
  - rewrite (visit_pass hop w n) by done. eauto.
  - rewrite (visit_honest hop w n) by done. eauto.
Qed.

(** The loop raises only on a hop that is not a key of [nodes]. *)
Lemma walk_total hops : ∀ w,
  (∀ h, h ∈ hops → is_Some (nodes w !! h)) → ∃ b w', walk hops w = inr (b, w').
Proof.
  induction hops as [|hop rest IH]; intros w Hall; [by eexists _, _|].
  destruct (Hall hop) as [n Hn]; [apply list_elem_of_here|].
  destruct (visit_present hop w n Hn) as (b & w1 & Hv).
  rewrite walk_cons_run, Hv. destruct b; [eauto|].
  apply IH. intros h Hh.
  pose proof (visit_touched _ _ _ _ Hv) as (_ & _ & _ & m & m' & _ & -> & _).
  destruct (decide (h = hop)) as [->|Hne].
  - rewrite lookup_insert_eq. eauto.
  - rewrite lookup_insert_ne by done. apply Hall. by apply list_elem_of_further.
Qed.

(** A loop that runs to its end found every hop, changed no trust, lowered
    the power of every hop by 1 to 5, and read one or two raw values per
    hop. *)
Lemma walk_false_effect hops : ∀ w w',
  walk hops w = inr (false, w') → NoDup hops →
  (length hops + pos (random w) ≤ pos (random w') ≤ 2 * length hops + pos (random w))%nat ∧
  ∀ h, h ∈ hops →
       ∃ n n', nodes w !! h = Some n ∧ nodes w' !! h = Some n' ∧
               trust n' = trust n ∧ 1 ≤ power n - power n' ≤ 5.
Proof.
  induction hops as [|hop rest IH]; intros w w' Hw Hnd.
  { injection Hw as <-. split; [simpl; lia|].
    intros h Hh. by apply not_elem_of_nil in Hh. }
  apply NoDup_cons in Hnd as [Hfresh Hnd].
  rewrite walk_cons_run in Hw.
  destruct (visit hop w) as [e|[[] w1]] eqn:Hv; [done | done |].
  apply visit_inv in Hv as (n & Hn & d & k & Hd & Hk & _ & ->).
  pose proof (walk_framed _ _ _ _ Hw) as Hfr.
  destruct (IH _ _ Hw Hnd) as [Hpos Hrest].
  split; [simpl in *; lia|].
  intros h Hh. apply elem_of_cons in Hh as [->|Hh].
  - exists n, (set_power (power n - d) n). split; [done|].
    rewrite (framed_lookup rest _ w' hop Hfr Hfresh). simpl.
    rewrite lookup_insert_eq. split; [done|]. simpl. split; [done | lia].
  - destruct (Hrest h Hh) as (m & m' & Hm & Hm' & Ht & Hp).
    simpl in Hm. rewrite lookup_insert_ne in Hm by (intros ->; done).
    exists m, m'. done.
Qed.

(** A loop that is left by a drop passed a prefix of the hops to its end and
    dropped at the next hop. *)
Lemma walk_true_inv hops : ∀ w w',
  walk hops w = inr (true, w') →
  ∃ pre hop post w1, hops = pre ++ hop :: post ∧
                     walk pre w = inr (false, w1) ∧ visit hop w1 = inr (true, w').
Proof.
  induction hops as [|hop rest IH]; intros w w' Hw; [done|].
  rewrite walk_cons_run in Hw.
  destruct (visit hop w) as [e|[[] w1]] eqn:Hv; [done| |].
  - injection Hw as <-. by exists [], hop, rest, w.
  - destruct (IH _ _ Hw) as (pre & h & post & w2 & -> & Hpre & Hh).
    exists (hop :: pre), h, post, w2. split; [done|]. split; [|done].
    by rewrite walk_cons_run, Hv.
Qed.

(** X13: when every node of the graph is a key of [nodes], as after the
    Topology Builder, [send_packet] never raises: it returns no route with
    "No Path Found", or a route with "Dropped by selfish node" or
    "Delivered". *)
Theorem send_packet_returns cost_lt src dst w :
  (∀ i, i ∈ dom (G w) → is_Some (nodes w !! i)) →
  ∃ r s w', send_packet cost_lt src dst w = inr ((r, s), w') ∧
            ((r = None ∧ s = "No Path Found"%string ∧ w' = w) ∨
             (is_Some r ∧ (s = "Dropped by selfish node"%string ∨
                           s = "Delivered"%string))).
Proof.
  intros Hdom. destruct (find_route_cases cost_lt src dst w) as [[Hr _]|[hops Hr]].
  - rewrite (send_packet_no_route _ _ _ _ Hr). eexists _, _, _. split; [done|].
    by left.
  - rewrite (send_packet_route _ _ _ _ _ Hr).
    pose proof (find_route_some _ _ _ _ _ Hr) as (_ & _ & _ & Hin).
    destruct (walk_total hops w) as (b & w' & ->).
    { intros h Hh. by apply Hdom, Hin. }
    destruct b; eexists _, _, _; (split; [done|]); right; split; eauto.
Qed.

Lemma send_packet_returns_witness :
  ∃ r s w', send_packet fixed_cost_lt 0 2 line_start = inr ((r, s), w') ∧
            ((r = None ∧ s = "No Path Found"%string ∧ w' = line_start) ∨
             (is_Some r ∧ (s = "Dropped by selfish node"%string ∨
                           s = "Delivered"%string))).
Proof.
  apply (send_packet_returns fixed_cost_lt 0 2 line_start).
  intros i. apply (built_dom_nodes 150 false false line_bare line_start);
    reflexivity.
Defined.

(** The three ways in which [send_packet] returns. *)
Lemma send_packet_inv cost_lt src dst w r s w' :
  send_packet cost_lt src dst w = inr ((r, s), w') →
  (r = None ∧ s = "No Path Found"%string ∧ w' = w) ∨
  ∃ route, r = Some route ∧ NoDup route ∧
           ((s = "Delivered"%string ∧ walk route w = inr (false, w')) ∨
            (s = "Dropped by selfish node"%string ∧ walk route w = inr (true, w'))).
Proof.
  intros Hsend. destruct (find_route_cases cost_lt src dst w) as [[Hr _]|[hops Hr]].
  - rewrite (send_packet_no_route _ _ _ _ Hr) in Hsend.
    injection Hsend as <- <- <-. by left.
  - rewrite (send_packet_route _ _ _ _ _ Hr) in Hsend.
    pose proof (find_route_some _ _ _ _ _ Hr) as (_ & Hnd & _).
    right. exists hops.
    destruct (walk hops w) as [e|[[] w2]]; [done| |];
      injection Hsend as <- <- <-; split_and!; try done; [by right | by left].
Qed.

(** What a loop that is left by a drop did: the hops before the dropping
    hop lost power, the dropping hop lost 5 trust, nothing else changed. *)
Lemma walk_drop_effect hops w w' :
  walk hops w = inr (true, w') → NoDup hops →
  ∃ pre hop post n,
    hops = pre ++ hop :: post ∧
    nodes w !! hop = Some n ∧ selfish n = true ∧
    nodes w' !! hop = Some (set_trust (trust n - 5) n) ∧
    (∀ h, h ∈ pre →
          ∃ m m', nodes w !! h = Some m ∧ nodes w' !! h = Some m' ∧
                  trust m' = trust m ∧ 1 ≤ power m - power m' ≤ 5) ∧
    (∀ i, i ∉ pre → i ≠ hop → nodes w' !! i = nodes w !! i).
Proof.
  intros Hw Hnd.
  destruct (walk_true_inv _ _ _ Hw) as (pre & hop & post & w1 & -> & Hpre & Hv).
  apply NoDup_app in Hnd as (Hndpre & Hdisj & Hnd2).
  pose proof (walk_framed _ _ _ _ Hpre) as Hfr.
  apply visit_inv in Hv as (n & Hn & Hs & _ & ->).
  assert (Hhop : hop ∉ pre).
  { intros Hin. eapply Hdisj; [exact Hin | apply list_elem_of_here]. }
  rewrite (framed_lookup pre w w1 hop Hfr Hhop) in Hn.
  exists pre, hop, post, n. split_and!; try done.
  - simpl. apply lookup_insert_eq.
  - intros h Hh.
    destruct (walk_false_effect _ _ _ Hpre Hndpre) as [_ Heff].
    destruct (Heff h Hh) as (m & m' & Hm & Hm' & Ht & Hp).
    exists m, m'. split; [done|]. split; [|done]. simpl.
    rewrite lookup_insert_ne; [done|]. by intros ->.
  - intros i Hi Hne. simpl. rewrite lookup_insert_ne by done.
    by apply (framed_lookup pre).
Qed.

(** X14: a hop of the route that is not a key of [nodes] makes [send_packet]
    raise [KeyError] when the loop reaches it. *)
Theorem send_packet_missing_hop cost_lt src dst w pre hop post w1 :
  find_route cost_lt src dst w = inr (Some (pre ++ hop :: post), w) →
  walk pre w = inr (false, w1) →
  nodes w !! hop = None →
  send_packet cost_lt src dst w = inl KeyError.
Proof.
  intros Hr Hpre Hn.
  rewrite (send_packet_route _ _ _ _ _ Hr), (walk_app _ _ _ _ Hpre), walk_cons_run.
  rewrite visit_missing; [done|].
  destruct (walk_framed _ _ _ _ Hpre) as (_ & _ & _ & Hnone & _). by apply Hnone.
Qed.

Lemma send_packet_missing_hop_witness :
  send_packet fixed_cost_lt 0 2 line_lost = inl KeyError.
Proof.
  apply (send_packet_missing_hop fixed_cost_lt 0 2 line_lost [0] 1 [2]
           line_lost_after_0);
    [vm_compute; reflexivity | vm_compute; reflexivity | reflexivity].
Defined.

(** X15: when [send_packet] reports "Delivered", no trust has changed, every
    node of the route has lost 1 to 5 power, every other node has all its
    fields as before, and between one and two raw values were read per
    hop. *)
Theorem delivered_effect cost_lt src dst w route w' :
  send_packet cost_lt src dst w = inr ((Some route, "Delivered"%string), w') →
  (length route + pos (random w) ≤ pos (random w')
   ≤ 2 * length route + pos (random w))%nat ∧
  ∀ i n, nodes w !! i = Some n →
         ∃ n', nodes w' !! i = Some n' ∧
               trust n' = trust n ∧ x n' = x n ∧ y n' = y n ∧
               selfish n' = selfish n ∧
               (i ∈ route → 1 ≤ power n - power n' ≤ 5) ∧
               (i ∉ route → n' = n).
Proof.
  intros Hsend.
  apply send_packet_inv in Hsend as [(? & _)|(hops & [= <-] & Hnd & Hcase)]; [done|].
  destruct Hcase as [[_ Hw]|[? _]]; [|done].
  destruct (walk_false_effect _ _ _ Hw Hnd) as [Hpos Heff].
  split; [done|]. intros i n Hn.
  destruct (walk_framed _ _ _ _ Hw) as (_ & _ & _ & _ & Hsome).
  destruct (Hsome i n Hn) as (n' & Hn' & Hx & Hy & Hs & _ & _ & Hsame).
  exists n'. split; [done|].
  destruct (decide (i ∈ route)) as [Hi|Hi].
  - destruct (Heff i Hi) as (m & m' & Hm & Hm' & Ht & Hp).
    assert (m = n ∧ m' = n') as [-> ->] by (split; congruence).
    split_and!; try done.
  - rewrite (Hsame Hi). split_and!; try done.
Qed.

Lemma delivered_effect_witness :
  (length [0; 1; 2] + pos (random line_lucky) ≤ pos (random line_delivered)
   ≤ 2 * length [0; 1; 2] + pos (random line_lucky))%nat ∧
  ∀ i n, nodes line_lucky !! i = Some n →
         ∃ n', nodes line_delivered !! i = Some n' ∧
               trust n' = trust n ∧ x n' = x n ∧ y n' = y n ∧
               selfish n' = selfish n ∧
               (i ∈ [0; 1; 2] → 1 ≤ power n - power n' ≤ 5) ∧
               (i ∉ [0; 1; 2] → n' = n).
Proof.
  apply (delivered_effect fixed_cost_lt 0 2 line_lucky [0; 1; 2] line_delivered).
  vm_compute. reflexivity.
Defined.

(** X16: when [send_packet] reports "Dropped by selfish node", the route
    splits at one selfish node that has lost exactly 5 trust and nothing
    else; the nodes before it on the route have lost 1 to 5 power and no
    trust, and every other node, on the route or not, is as before. *)
Theorem dropped_effect cost_lt src dst w route w' :
  send_packet cost_lt src dst w =
    inr ((Some route, "Dropped by selfish node"%string), w') →
  ∃ pre hop post n,
    route = pre ++ hop :: post ∧
    nodes w !! hop = Some n ∧ selfish n = true ∧
    nodes w' !! hop = Some (set_trust (trust n - 5) n) ∧
    (∀ h, h ∈ pre →
          ∃ m m', nodes w !! h = Some m ∧ nodes w' !! h = Some m' ∧
                  trust m' = trust m ∧ 1 ≤ power m - power m' ≤ 5) ∧
    (∀ i, i ∉ pre → i ≠ hop → nodes w' !! i = nodes w !! i).
Proof.
  intros Hsend.
  apply send_packet_inv in Hsend as [(? & _)|(hops & [= <-] & Hnd & Hcase)]; [done|].
  destruct Hcase as [[? _]|[_ Hw]]; [done|].
  by apply walk_drop_effect.
Qed.

Lemma dropped_effect_witness :
  ∃ pre hop post n,
    [0; 1; 2] = pre ++ hop :: post ∧
    nodes line_start !! hop = Some n ∧ selfish n = true ∧
    nodes line_dropped !! hop = Some (set_trust (trust n - 5) n) ∧
    (∀ h, h ∈ pre →
          ∃ m m', nodes line_start !! h = Some m ∧ nodes line_dropped !! h = Some m' ∧
                  trust m' = trust m ∧ 1 ≤ power m - power m' ≤ 5) ∧
    (∀ i, i ∉ pre → i ≠ hop → nodes line_dropped !! i = nodes line_start !! i).
Proof.
  apply (dropped_effect fixed_cost_lt 0 2 line_start [0; 1; 2] line_dropped).
  vm_compute. reflexivity.
Defined.

(** The change that [send_packet] makes to one node. *)
Lemma send_packet_change cost_lt src dst w r s w' i n :
  send_packet cost_lt src dst w = inr ((r, s), w') →
  nodes w !! i = Some n →
  ∃ n', nodes w' !! i = Some n' ∧
        0 ≤ power n - power n' ≤ 5 ∧
        (trust n' = trust n ∨
         (trust n' = trust n - 5 ∧ selfish n = true ∧ power n' = power n ∧
          s = "Dropped by selfish node"%string)).
Proof.
  intros Hsend Hn.
  apply send_packet_inv in Hsend as [(_ & _ & ->)|(hops & _ & Hnd & Hcase)].
  { exists n. split; [done|]. split; [lia | by left]. }
  destruct Hcase as [[_ Hw]|[-> Hw]].
  - destruct (decide (i ∈ hops)) as [Hi|Hi].
    + destruct (walk_false_effect _ _ _ Hw Hnd) as [_ Heff].
      destruct (Heff i Hi) as (m & m' & Hm & Hm' & Ht & Hp).
      assert (m = n) as -> by congruence.
      exists m'. split; [done|]. split; [lia | by left].
    + rewrite <- (framed_lookup hops w w' i (walk_framed _ _ _ _ Hw) Hi) in Hn.
      exists n. split; [done|]. split; [lia | by left].
  - destruct (walk_drop_effect _ _ _ Hw Hnd)
      as (pre & hop & post & m & _ & Hm & Hs & Hm' & Hpre & Hrest).
    destruct (decide (i = hop)) as [->|Hne].
    + assert (m = n) as -> by congruence.
      eexists. split; [exact Hm'|]. simpl. split; [lia|]. right. done.
    + destruct (decide (i ∈ pre)) as [Hi|Hi].
      * destruct (Hpre i Hi) as (k & k' & Hk & Hk' & Ht & Hp).
        assert (k = n) as -> by congruence.
        exists k'. split; [done|]. split; [lia | by left].
      * exists n. rewrite (Hrest i Hi Hne). split; [done|]. split; [lia | by left].
Qed.

(** X17: whatever [send_packet] returns, no node gains power or trust, no
    node loses more than 5 power, and a node loses trust only by 5, only when
    it is selfish, only in the outcome "Dropped by selfish node", and then
    without losing power; at most one node loses trust. *)
Theorem send_packet_bounded_change cost_lt src dst w r s w' :
  send_packet cost_lt src dst w = inr ((r, s), w') →
  (∀ i n, nodes w !! i = Some n →
          ∃ n', nodes w' !! i = Some n' ∧
                0 ≤ power n - power n' ≤ 5 ∧
                (trust n' = trust n ∨
                 (trust n' = trust n - 5 ∧ selfish n = true ∧ power n' = power n ∧
                  s = "Dropped by selfish node"%string))) ∧
  ∀ i j n n' m m',
    nodes w !! i = Some n → nodes w' !! i = Some n' →
    nodes w !! j = Some m → nodes w' !! j = Some m' →
    trust n' ≠ trust n → trust m' ≠ trust m → i = j.
Proof.
  intros Hsend. split; [intros i n; by apply (send_packet_change cost_lt src dst w r s w')|].
  assert (Hone : ∃ hop, ∀ i n n', nodes w !! i = Some n → nodes w' !! i = Some n' →
                                  trust n' ≠ trust n → i = hop).
  { apply send_packet_inv in Hsend as [(_ & _ & ->)|(hops & _ & Hnd & Hcase)].
    { exists 0. intros i n n' Hn Hn'. congruence. }
    destruct Hcase as [[_ Hw]|[_ Hw]].
    - exists 0. intros i n n' Hn Hn' Hne. exfalso. apply Hne.
      destruct (decide (i ∈ hops)) as [Hi|Hi].
      + destruct (walk_false_effect _ _ _ Hw Hnd) as [_ Heff].
        destruct (Heff i Hi) as (k & k' & Hk & Hk' & Ht & _). congruence.
      + rewrite (framed_lookup hops w w' i (walk_framed _ _ _ _ Hw) Hi) in Hn'.
        congruence.
    - destruct (walk_drop_effect _ _ _ Hw Hnd)
        as (pre & hop & post & k & _ & _ & _ & _ & Hpre & Hrest).
      exists hop. intros i n n' Hn Hn' Hne.
      destruct (decide (i = hop)) as [|Hi]; [done|]. exfalso. apply Hne.
      destruct (decide (i ∈ pre)) as [Hin|Hin].
      + destruct (Hpre i Hin) as (k1 & k1' & Hk & Hk' & Ht & _). congruence.
      + rewrite (Hrest i Hin Hi) in Hn'. congruence. }
  destruct Hone as [hop Hone]. intros i j n n' m m' Hn Hn' Hm Hm' Hi Hj.
  rewrite (Hone i n n' Hn Hn' Hi). symmetry. by apply (Hone j m m').
Qed.

Lemma send_packet_bounded_change_witness :
  (∀ i n, nodes line_start !! i = Some n →
          ∃ n', nodes line_dropped !! i = Some n' ∧
                0 ≤ power n - power n' ≤ 5 ∧
                (trust n' = trust n ∨
                 (trust n' = trust n - 5 ∧ selfish n = true ∧ power n' = power n ∧
                  "Dropped by selfish node"%string = "Dropped by selfish node"%string))) ∧
  ∀ i j n n' m m',
    nodes line_start !! i = Some n → nodes line_dropped !! i = Some n' →
    nodes line_start !! j = Some m → nodes line_dropped !! j = Some m' →
    trust n' ≠ trust n → trust m' ≠ trust m → i = j.
Proof.
  apply (send_packet_bounded_change fixed_cost_lt 0 2 line_start (Some [0; 1; 2])
           "Dropped by selfish node"%string line_dropped).
  vm_compute. reflexivity.
Defined.

(** ** The whole run *)

Lemma send_packet_ok cost_lt src dst w :
  (∀ i, i ∈ dom (G w) → is_Some (nodes w !! i)) →
  ∃ r s w', send_packet cost_lt src dst w = inr ((r, s), w').
Proof.
  intros Hdom. destruct (find_route_cases cost_lt src dst w) as [[Hr _]|[hops Hr]].
  - rewrite (send_packet_no_route _ _ _ _ Hr). by eexists _, _, _.
  - rewrite (send_packet_route _ _ _ _ _ Hr).
    pose proof (find_route_some _ _ _ _ _ Hr) as (_ & _ & _ & Hin).
    destruct (walk_total hops w) as (b & w' & ->).
    { intros h Hh. by apply Hdom, Hin. }
    destruct b; by eexists _, _, _.
Qed.

Lemma send_packet_framed cost_lt src dst w r s w' :
  send_packet cost_lt src dst w = inr ((r, s), w') → framed (default [] r) w w'.
Proof.
  intros Hsend.
  apply send_packet_inv in Hsend as [(-> & _ & ->)|(hops & -> & _ & Hcase)].
  - apply framed_refl.
  - destruct Hcase as [[_ Hw]|[_ Hw]]; by eapply walk_framed.
Qed.

Lemma send_packet_route_nodes cost_lt src dst w route s w' h :
  send_packet cost_lt src dst w = inr ((Some route, s), w') →
  h ∈ route → h ∈ dom (G w).
Proof.
  intros Hsend Hh.
  destruct (find_route_cases cost_lt src dst w) as [[Hr _]|[hops Hr]].
  - by rewrite (send_packet_no_route _ _ _ _ Hr) in Hsend.
  - pose proof (find_route_some _ _ _ _ _ Hr) as (_ & _ & _ & Hin).
    rewrite (send_packet_route _ _ _ _ _ Hr) in Hsend.
    destruct (walk hops w) as [e|[[] w2]]; [done| |];
      injection Hsend as <- _ _; by apply Hin.
Qed.

(** The script up to the send: nodes generated and marked, links built. *)
Lemma simulate_setup (c : Config) rng :
  0 ≤ int_div100 (num_nodes c * selfish_ratio c) ≤ Z.of_nat (Z.to_nat (num_nodes c)) →
  ∃ sns w1 w2 w,
    generate_nodes (range (num_nodes c)) (mkWorld ∅ ∅ rng) = inr (tt, w1) ∧
    assign_selfish (num_nodes c) (selfish_ratio c) w1 = inr (sns, w2) ∧
    build_links (tx_range c) (multi_radio c) (multi_channel c) w2 = inr (tt, w) ∧
    Z.of_nat (length sns) = int_div100 (num_nodes c * selfish_ratio c) ∧
    NoDup sns ∧
    (∀ i, is_Some (nodes w !! i) ↔ 0 ≤ i < num_nodes c) ∧
    (∀ i, i ∈ sns → is_Some (nodes w !! i)) ∧
    (∀ i node, nodes w !! i = Some node → (selfish node = true ↔ i ∈ sns)) ∧
    (∀ i node, nodes w !! i = Some node →
               70 ≤ power node ≤ 100 ∧ 20 ≤ trust node ≤ 100) ∧
    (∀ i, i ∈ dom (G w) → is_Some (nodes w !! i)).
Proof.
  intros Hk. set (w0 := mkWorld ∅ ∅ rng).
  destruct (generate_nodes_spec (range (num_nodes c)) w0)
    as (w1 & Hgen & HG1 & _ & Hout & Hin).
  pose proof (generated_size (num_nodes c) w0 w1 eq_refl Hgen) as Hsize.
  destruct (assign_selfish_spec (num_nodes c) (selfish_ratio c) w1)
    as (sns & w2 & Hassign & Hlen & Hnd & Hsub & HG2 & Hnone & Hsome).
  { by rewrite Hsize. }
  exists sns, w1, w2,
    (with_G (link_all (tx_range c) (multi_radio c) (multi_channel c)
               (map_to_list (nodes w2)) (G w2)) w2).
  split; [done|]. split; [done|]. split; [apply build_links_run|].
  assert (Hkeys : ∀ i, is_Some (nodes w2 !! i) ↔ 0 ≤ i < num_nodes c).
  { intros i. rewrite <- (generated_keys (num_nodes c) w0 w1 i eq_refl Hgen).
    destruct (nodes w1 !! i) as [m|] eqn:Hm.
    - destruct (Hsome i m Hm) as (m' & -> & _). split; eauto.
    - rewrite (Hnone i Hm). done. }
  assert (Hfields : ∀ i node, nodes w2 !! i = Some node →
            (selfish node = true ↔ i ∈ sns) ∧
            70 ≤ power node ≤ 100 ∧ 20 ≤ trust node ≤ 100).
  { intros i node Hnode.
    assert (Hi : i ∈ range (num_nodes c)).
    { unfold range. apply elem_of_seqZ.
      assert (0 ≤ i < num_nodes c) by (apply Hkeys; eauto). lia. }
    destruct (Hin i Hi) as (m & Hm & Ht & Hs & _ & _ & Hp).
    destruct (Hsome i m Hm) as (m' & Hm' & _ & _ & Hp' & Hyes & Hno).
    assert (m' = node) as -> by congruence.
    destruct (decide (i ∈ sns)) as [Hsn|Hsn].
    - destruct (Hyes Hsn) as [Hs' Ht']. split; [done|]. lia.
    - rewrite (Hno Hsn). split; [|lia]. split; [congruence | done]. }
  simpl. split_and!; try done.
  - intros i Hi. destruct (Hsub i Hi) as [m Hm].
    destruct (Hsome i m Hm) as (m' & -> & _). eauto.
  - intros i node Hnode. by apply Hfields.
  - intros i node Hnode. by apply (Hfields i).
  - intros i Hi.
    assert (HG : G w2 = ∅) by (by rewrite HG2, HG1).
    apply (built_dom_nodes (tx_range c) (multi_radio c) (multi_channel c) w2
             (with_G (link_all (tx_range c) (multi_radio c) (multi_channel c)
                        (map_to_list (nodes w2)) (G w2)) w2) i HG
             (build_links_run _ _ _ w2) Hi).
Qed.

Lemma size_of_keys {A} (m : gmap Z A) n :
  (∀ i, is_Some (m !! i) ↔ 0 ≤ i < n) → size m = Z.to_nat n.
Proof.
  intros Hkeys. rewrite <- size_dom, <- (length_seqZ 0 n).
  rewrite <- (size_list_to_set (C := gset Z) (seqZ 0 n)) by apply NoDup_seqZ.
  f_equal. apply set_eq. intros i.
  rewrite elem_of_dom, elem_of_list_to_set, elem_of_seqZ, Hkeys. lia.
Qed.

(** A run with at least one node and a selfish count that fits. *)
Lemma run_facts cost_lt c rng :
  1 ≤ num_nodes c →
  0 ≤ int_div100 (num_nodes c * selfish_ratio c) ≤ num_nodes c →
  ∃ o w, run cost_lt c rng = inr (o, w) ∧
         0 ≤ src o < num_nodes c ∧ 0 ≤ dst o < num_nodes c ∧
         (∀ i, is_Some (nodes w !! i) ↔ 0 ≤ i < num_nodes c) ∧
         size (nodes w) = Z.to_nat (num_nodes c) ∧
         Z.of_nat (count_selfish (nodes w)) =
           int_div100 (num_nodes c * selfish_ratio c) ∧
         (∀ i node, nodes w !! i = Some node →
                    65 ≤ power node ≤ 100 ∧ 15 ≤ trust node ≤ 100) ∧
         (∀ i, i ∈ dom (G w) → 0 ≤ i < num_nodes c) ∧
         (∀ route h, path o = Some route → h ∈ route → 0 ≤ h < num_nodes c).
Proof.
  intros Hn Hk.
  destruct (simulate_setup c rng)
    as (sns & w1 & w2 & w3 & Hgen & Hassign & Hbuild
        & Hlen & Hnd & Hkeys & Hsub & Hself & Hrange & Hdom); [lia|].
  unfold run, simulate.
  rewrite bind_run, Hgen, bind_run, Hassign, bind_run, Hbuild.
  rewrite bind_run, randint_run by lia.
  rewrite bind_run, randint_run by lia.
  set (s := 0 + raw_at w3 0 mod (num_nodes c - 1 - 0 + 1)).
  set (t := 0 + raw_at (advance 1 w3) 0 mod (num_nodes c - 1 - 0 + 1)).
  set (w5 := advance 1 (advance 1 w3)).
  assert (Hs : 0 ≤ s < num_nodes c).
  { unfold s. pose proof (Z.mod_pos_bound (raw_at w3 0) (num_nodes c - 1 - 0 + 1)). lia. }
  assert (Ht : 0 ≤ t < num_nodes c).
  { unfold t. pose proof (Z.mod_pos_bound (raw_at (advance 1 w3) 0)
                            (num_nodes c - 1 - 0 + 1)). lia. }
  rewrite bind_run.
  destruct (send_packet_ok cost_lt s t w5 Hdom) as (r & st & w6 & Hsend).
  rewrite Hsend. eexists _, _. split; [done|]. simpl.
  pose proof (send_packet_framed _ _ _ _ _ _ _ Hsend) as (HG & _ & _ & Hnone & Hsome).
  assert (Hfinal : ∀ i node, nodes w6 !! i = Some node →
            ∃ m, nodes w3 !! i = Some m ∧ selfish node = selfish m ∧
                 power m - 5 ≤ power node ≤ power m ∧
                 trust m - 5 ≤ trust node ≤ trust m).
  { intros i node Hnode. destruct (nodes w3 !! i) as [m|] eqn:Hm.
    - destruct (send_packet_change _ _ _ _ _ _ _ i m Hsend Hm) as (m' & Hm' & Hp & Ht').
      assert (m' = node) as -> by congruence.
      destruct (Hsome i m Hm) as (m'' & Hm'' & _ & _ & Hsel & _).
      assert (m'' = node) as -> by congruence.
      exists m. split; [done|]. split; [done|]. lia.
    - rewrite (Hnone i Hm) in Hnode. done. }
  split; [exact Hs|]. split; [exact Ht|].
  assert (Hkeys6 : ∀ i, is_Some (nodes w6 !! i) ↔ 0 ≤ i < num_nodes c).
  { intros i. rewrite <- Hkeys. change (nodes w5) with (nodes w3) in *.
    destruct (nodes w3 !! i) as [m|] eqn:Hm.
    + destruct (Hsome i m Hm) as (m' & -> & _). split; eauto.
    + by rewrite (Hnone i Hm). }
  split; [exact Hkeys6|]. split; [by apply size_of_keys|].
  split; [|split; [|split]].
  - rewrite <- Hlen. f_equal.
    apply (count_selfish_marked (nodes w3) (nodes w6) sns Hnd).
    + intros i Hi. destruct (Hsub i Hi) as [m Hm].
      destruct (Hsome i m Hm) as (m' & Hm' & _ & _ & Hsel & _).
      exists m'. split; [done|]. rewrite Hsel. by apply (Hself i m Hm).
    + intros i m' Hm' Hsel. destruct (Hfinal i m' Hm') as (m & Hm & Heq & _).
      apply (Hself i m Hm). congruence.
  - intros i node Hnode. destruct (Hfinal i node Hnode) as (m & Hm & _ & Hp & Ht').
    destruct (Hrange i m Hm). lia.
  - intros i Hi. apply Hkeys, Hdom. rewrite HG in Hi. exact Hi.
  - intros route h -> Hh. apply Hkeys, Hdom.
    exact (send_packet_route_nodes cost_lt s t w5 route st w6 h Hsend Hh).
Qed.

(** X18: with at least one node and a selfish count between 0 and the
    number of nodes (as for all settings of the sliders) the run never
    raises.  Its end points are node ids; the final mapping has the ids
    [0 .. num_nodes - 1], of which [int(num_nodes * selfish_ratio / 100)] are
    selfish, every power is in 65..100 and every trust in 15..100; every node
    of the graph and every hop of the route is a node id. *)
Theorem run_returns cost_lt c rng :
  1 ≤ num_nodes c →
  0 ≤ int_div100 (num_nodes c * selfish_ratio c) ≤ num_nodes c →
  ∃ o w, run cost_lt c rng = inr (o, w) ∧
         0 ≤ src o < num_nodes c ∧ 0 ≤ dst o < num_nodes c ∧
         (∀ i, is_Some (nodes w !! i) ↔ 0 ≤ i < num_nodes c) ∧
         size (nodes w) = Z.to_nat (num_nodes c) ∧
         Z.of_nat (count_selfish (nodes w)) =
           int_div100 (num_nodes c * selfish_ratio c) ∧
         (∀ i node, nodes w !! i = Some node →
                    65 ≤ power node ≤ 100 ∧ 15 ≤ trust node ≤ 100) ∧
         (∀ i, i ∈ dom (G w) → 0 ≤ i < num_nodes c) ∧
         (∀ route h, path o = Some route → h ∈ route → 0 ≤ h < num_nodes c).
Proof. intros Hn Hk. exact (run_facts cost_lt c rng Hn Hk). Qed.

Lemma run_returns_witness :
  ∃ o w, run fixed_cost_lt (mkConfig 5 150 40 true true false) (random fresh)
         = inr (o, w) ∧
         0 ≤ src o < 5 ∧ 0 ≤ dst o < 5 ∧
         Z.of_nat (count_selfish (nodes w)) = 2.
Proof.
  destruct (run_returns fixed_cost_lt (mkConfig 5 150 40 true true false) (random fresh))
    as (o & w & Hrun & Hsrc & Hdst & _ & _ & Hcount & _);
    [simpl; lia | vm_compute; split; discriminate |].
  exists o, w. split; [exact Hrun|]. split; [exact Hsrc|].
  split; [exact Hdst | exact Hcount].
Defined.



(** ** What the page shows *)

Lemma edges_from_elem g u v : ∀ ks seen,
  (u, v) ∈ edges_from g seen ks ↔
  ∃ l1 l2, ks = l1 ++ u :: l2 ∧ adjacent g u v ∧ (v ∉ seen) ∧ (v ∉ l1).
Proof.
  induction ks as [|a rest IH]; intros seen; simpl.
  { split; [by intros ?%not_elem_of_nil|]. intros ([|] & ? & ? & _); done. }
  rewrite elem_of_app, list_elem_of_fmap, IH. split.
  - intros [(p & [= -> ->] & Hin)|(l1 & l2 & -> & Hadj & Hns & Hnl)].
    + apply list_elem_of_filter in Hin as [Hns Hin]. apply adjacent_keys in Hin.
      exists [], rest. split_and!; try done. apply not_elem_of_nil.
    + exists (a :: l1), l2. rewrite not_elem_of_cons in Hns.
      split_and!; try done; [tauto|]. rewrite not_elem_of_cons. tauto.
  - intros ([|b l1] & l2 & Heq & Hadj & Hns & Hnl); simplify_eq/=.
    + left. exists v. split; [done|]. apply list_elem_of_filter.
      split; [done | by apply adjacent_keys].
    + right. exists l1, l2. rewrite not_elem_of_cons in Hnl.
      split_and!; try done; [|tauto]. rewrite not_elem_of_cons. tauto.
Qed.

Lemma edges_from_fst g u v ks seen : (u, v) ∈ edges_from g seen ks → u ∈ ks.
Proof.
  intros (l1 & l2 & -> & _)%edges_from_elem.
  apply elem_of_app. right. apply list_elem_of_here.
Qed.

Lemma NoDup_edges_from g : ∀ ks seen, NoDup ks → NoDup (edges_from g seen ks).
Proof.
  induction ks as [|a rest IH]; intros seen Hnd; simpl; [apply NoDup_nil_2|].
  apply NoDup_cons in Hnd as [Ha Hnd]. apply NoDup_app. split; [|split].
  - apply NoDup_fmap_2_strong.
    + intros p q _ _ Heq. by injection Heq.
    + apply NoDup_filter, NoDup_fst_map_to_list.
  - intros [u v] Hin Hin2. apply list_elem_of_fmap in Hin as (p & [= -> ->] & _).
    by apply edges_from_fst in Hin2.
  - by apply IH.
Qed.

(** In a list, of two distinct items one comes first. *)
Lemma split_order (u v : Z) : ∀ l1 l2 m1 m2,
  l1 ++ u :: l2 = m1 ++ v :: m2 → u ≠ v → v ∉ l1 → u ∈ m1.
Proof.
  induction l1 as [|a l1 IH]; intros l2 [|b m1] m2 Heq Hne Hv; simplify_eq/=.
  - apply list_elem_of_here.
  - exfalso. apply Hv, list_elem_of_here.
  - apply list_elem_of_further. eapply IH; [done.. |].
    intros Hin. apply Hv. by apply list_elem_of_further.
Qed.

(** Over an undirected graph without self-loops, [G.edges()] reports every
    link once, in one of its two directions. *)
Lemma edges_once (g : Graph) :
  (∀ i j, edge g i j = edge g j i) → (∀ i, edge g i i = None) →
  NoDup (edges g) ∧
  ∀ u v, ((u, v) ∈ edges g → adjacent g u v) ∧
         (adjacent g u v →
          ((u, v) ∈ edges g ∨ (v, u) ∈ edges g) ∧
          ¬ ((u, v) ∈ edges g ∧ (v, u) ∈ edges g)).
Proof.
  intros Hsym Hloop. unfold edges.
  split; [apply NoDup_edges_from, NoDup_fst_map_to_list|].
  intros u v. split; [by intros (_ & _ & _ & ? & _)%edges_from_elem|].
  intros Hadj.
  assert (Hne : u ≠ v).
  { intros ->. destruct Hadj as [a Ha]. by rewrite Hloop in Ha. }
  assert (Hadj' : adjacent g v u) by (unfold adjacent in *; by rewrite Hsym).
  split.
  - assert (Hu : u ∈ keys g) by (by apply keys_elem, elem_of_dom, (adjacent_dom_l g u v)).
    apply list_elem_of_split in Hu as (l1 & l2 & Hks).
    destruct (decide (v ∈ l1)) as [Hv|Hv].
    + right. apply list_elem_of_split in Hv as (a & b & ->).
      apply edges_from_elem. exists a, (b ++ u :: l2).
      split; [by rewrite Hks, <- app_assoc|]. split; [done|].
      split; [apply not_elem_of_nil|].
      pose proof (NoDup_fst_map_to_list g) as Hnd. fold (keys g) in Hnd.
      rewrite Hks in Hnd. apply NoDup_app in Hnd as (_ & Hdisj & _).
      intros Hin. eapply (Hdisj u); [|apply list_elem_of_here].
      apply elem_of_app. by left.
    + left. apply edges_from_elem. exists l1, l2. split_and!; try done.
      apply not_elem_of_nil.
  - intros [(l1 & l2 & Hks1 & _ & _ & Hv)%edges_from_elem
            (m1 & m2 & Hks2 & _ & _ & Hu)%edges_from_elem].
    apply Hu. eapply split_order; [|exact Hne | exact Hv]. by rewrite <- Hks1, <- Hks2.
Qed.

Lemma foldl_add acc l : foldl Z.add acc l = acc + foldl Z.add 0 l.
Proof.
  revert acc. induction l as [|b l IH]; intros acc; simpl; [lia|].
  rewrite (IH (acc + b)), (IH (0 + b)). lia.
Qed.

Lemma total_cons a l : total (a :: l) = a + total l.
Proof. unfold total. simpl. apply foldl_add. Qed.

Lemma total_bounds l lo hi :
  (∀ v, v ∈ l → lo ≤ v ≤ hi) →
  lo * Z.of_nat (length l) ≤ total l ≤ hi * Z.of_nat (length l).
Proof.
  induction l as [|a l IH]; intros Hall; [unfold total; simpl; lia|].
  rewrite total_cons. specialize (Hall a (list_elem_of_here _ _)) as Ha.
  assert (Hrest : lo * Z.of_nat (length l) ≤ total l ≤ hi * Z.of_nat (length l)).
  { apply IH. intros v Hv. by apply Hall, list_elem_of_further. }
  simpl length. lia.
Qed.

Lemma length_bind_total {A B} (f : A → list B) (l : list A) :
  Z.of_nat (length (l ≫= f)) = total ((λ a, Z.of_nat (length (f a))) <$> l).
Proof.
  induction l as [|a l IH]; [done|].
  change ((a :: l) ≫= f) with (f a ++ (l ≫= f)).
  rewrite length_app, fmap_cons, total_cons. lia.
Qed.

(** X20: over the built graph [G.edges()] has no duplicate and reports every
    link exactly once, in one of its two directions, and nothing else. *)
Theorem edges_report_links_once tx mr mc w w' :
  G w = ∅ → build_links tx mr mc w = inr (tt, w') →
  NoDup (edges (G w')) ∧
  ∀ u v, ((u, v) ∈ edges (G w') → adjacent (G w') u v) ∧
         (adjacent (G w') u v →
          ((u, v) ∈ edges (G w') ∨ (v, u) ∈ edges (G w')) ∧
          ¬ ((u, v) ∈ edges (G w') ∧ (v, u) ∈ edges (G w'))).
Proof.
  intros HG Hb. apply edges_once.
  - intros i j. rewrite !(built_edge tx mr mc w w') by done. apply wanted_sym.
  - intros i. rewrite (built_edge tx mr mc w w') by done.
    unfold wanted. by rewrite decide_False by tauto.
Qed.

Lemma edges_report_links_once_witness :
  NoDup (edges (G line_start)) ∧
  ∀ u v, ((u, v) ∈ edges (G line_start) → adjacent (G line_start) u v) ∧
         (adjacent (G line_start) u v →
          ((u, v) ∈ edges (G line_start) ∨ (v, u) ∈ edges (G line_start)) ∧
          ¬ ((u, v) ∈ edges (G line_start) ∧ (v, u) ∈ edges (G line_start))).
Proof.
  apply (edges_report_links_once 150 false false line_bare line_start);
    reflexivity.
Defined.

Lemma adj_lookup g u v : adj g u !! v = edge g u v.
Proof. unfold adj, edge. destruct (g !! u); [done | apply lookup_empty]. Qed.

(** X21: over the built graph the number that [len(G.edges())] computes from
    the degrees is the number of links that [G.edges()] reports. *)
Theorem edge_count_matches tx mr mc w w' :
  G w = ∅ → build_links tx mr mc w = inr (tt, w') →
  number_of_edges (G w') = Z.of_nat (length (edges (G w'))).
Proof.
  intros HG Hb. set (g := G w').
  assert (Hsym : ∀ i j, edge g i j = edge g j i).
  { intros i j. unfold g. rewrite !(built_edge tx mr mc w w') by done.
    apply wanted_sym. }
  assert (Hloop : ∀ i, edge g i i = None).
  { intros i. unfold g. rewrite (built_edge tx mr mc w w') by done.
    unfold wanted. by rewrite decide_False by tauto. }
  destruct (edges_once g Hsym Hloop) as [Hnd Hedges].
  set (pairs := keys g ≫= (λ n, (n,.) <$> keys (adj g n))).
  assert (Hpairs : ∀ u v, (u, v) ∈ pairs ↔ adjacent g u v).
  { intros u v. unfold pairs. rewrite list_elem_of_bind. split.
    - intros (n & Hin & _). apply list_elem_of_fmap in Hin as (p & [= -> ->] & Hp).
      by apply adjacent_keys.
    - intros Hadj. exists u. split.
      + apply list_elem_of_fmap. exists v. split; [done | by apply adjacent_keys].
      + by apply keys_elem, elem_of_dom, (adjacent_dom_l g u v). }
  assert (Hperm : pairs ≡ₚ edges g ++ (prod_swap <$> edges g)).
  { apply NoDup_Permutation.
    - apply NoDup_bind; [| |apply NoDup_fst_map_to_list].
      + intros x1 x2 [u v] _ _ H1 H2.
        apply list_elem_of_fmap in H1 as (? & [= -> _] & _).
        by apply list_elem_of_fmap in H2 as (? & [= -> _] & _).
      + intros n _. apply NoDup_fmap_2_strong; [|apply NoDup_fst_map_to_list].
        intros p q _ _ Heq. by injection Heq.
    - apply NoDup_app. split; [done|]. split.
      + intros [u v] Hin Hin2.
        apply list_elem_of_fmap in Hin2 as ([a b] & [= -> ->] & Hba).
        destruct (Hedges b a) as [Hsound Hcover].
        destruct (Hcover (Hsound Hin)) as [_ Hnot]. by apply Hnot.
      + apply NoDup_fmap_2_strong; [|done].
        intros [a b] [c d] _ _ [= -> ->]. done.
    - intros [u v]. rewrite Hpairs, elem_of_app, list_elem_of_fmap. split.
      + intros Hadj. destruct (Hedges u v) as [_ Hcover].
        destruct (Hcover Hadj) as [[Huv|Hvu] _]; [by left|].
        right. by exists (v, u).
      + intros [Huv|([a b] & [= -> ->] & Hba)].
        * by apply (Hedges u v).
        * unfold adjacent. rewrite Hsym. by apply (Hedges a b). }
  unfold number_of_edges. fold g.
  assert (Hterms : (λ n, Z.of_nat (size (adj g n))
                         + (if decide (is_Some (adj g n !! n)) then 1 else 0)) <$> keys g
                   = (λ n, Z.of_nat (length ((n,.) <$> keys (adj g n)))) <$> keys g).
  { apply list_fmap_ext. intros _ n _. rewrite adj_lookup, Hloop.
    rewrite decide_False by (by intros [? ?]).
    rewrite length_fmap, keys_length. lia. }
  rewrite Hterms, <- (length_bind_total (λ n, (n,.) <$> keys (adj g n))).
  fold pairs. rewrite Hperm, length_app, length_fmap.
  rewrite Nat2Z.inj_add.
  replace (Z.of_nat (length (edges g)) + Z.of_nat (length (edges g)))
    with (Z.of_nat (length (edges g)) * 2) by lia.
  apply Z.div_mul. lia.
Qed.

Lemma edge_count_matches_witness :
  number_of_edges (G line_start) = Z.of_nat (length (edges (G line_start))).
Proof.
  apply (edge_count_matches 150 false false line_bare line_start); reflexivity.
Defined.

Lemma selfish_list_elem (m : gmap Z Node) i :
  i ∈ selfish_list m ↔ ∃ n, m !! i = Some n ∧ selfish n = true.
Proof.
  unfold selfish_list. rewrite list_elem_of_filter, keys_elem. split.
  - intros [Hs [n Hn]]. rewrite Hn in Hs. injection Hs as Hs. eauto.
  - intros (n & Hn & Hs). rewrite Hn. simpl. rewrite Hs. eauto.
Qed.

Lemma selfish_list_NoDup (m : gmap Z Node) : NoDup (selfish_list m).
Proof. apply NoDup_filter, NoDup_fst_map_to_list. Qed.

Lemma selfish_list_length (m : gmap Z Node) :
  length (selfish_list m) = count_selfish m.
Proof.
  unfold count_selfish. rewrite <- keys_length.
  apply Permutation_length, NoDup_Permutation;
    [apply selfish_list_NoDup | apply NoDup_fst_map_to_list|].
  intros i. rewrite selfish_list_elem, keys_elem. split.
  - intros (n & Hn & Hs). exists n. by apply map_lookup_filter_Some.
  - intros [n Hn]. apply map_lookup_filter_Some in Hn as [Hn Hs]. eauto.
Qed.

(** X22: the list of selfish nodes shown names every selfish node of the
    mapping once and no other id, so its length is the number of selfish
    nodes. *)
Theorem selfish_list_spec (m : gmap Z Node) :
  NoDup (selfish_list m) ∧
  (∀ i, i ∈ selfish_list m ↔ ∃ n, m !! i = Some n ∧ selfish n = true) ∧
  length (selfish_list m) = count_selfish m.
Proof.
  split; [apply selfish_list_NoDup|].
  split; [apply selfish_list_elem | apply selfish_list_length].
Qed.

Lemma average_bounds t n lo hi :
  0 < n → lo * n ≤ t ≤ hi * n →
  ∃ q, average t n = Some q ∧ (inject_Z lo <= q)%Q ∧ (q <= inject_Z hi)%Q.
Proof.
  intros Hn [Hlo Hhi]. unfold average. rewrite decide_False by lia.
  eexists. split; [done|].
  assert (Hpos : (0 < inject_Z n)%Q) by (unfold Qlt; simpl; lia).
  split.
  - apply Qle_shift_div_l; [done|]. rewrite <- inject_Z_mult, <- Zle_Qle. lia.
  - apply Qle_shift_div_r; [done|]. rewrite <- inject_Z_mult, <- Zle_Qle. lia.
Qed.

Lemma field_total_bounds (f : Node → Z) (m : gmap Z Node) lo hi :
  (∀ i node, m !! i = Some node → lo ≤ f node ≤ hi) →
  lo * Z.of_nat (size m) ≤ total ((λ kv, f kv.2) <$> map_to_list m)
  ≤ hi * Z.of_nat (size m).
Proof.
  intros Hall. rewrite <- length_map_to_list.
  rewrite <- (length_fmap (λ kv : Z * Node, f kv.2) (map_to_list m)).
  apply total_bounds. intros v Hv.
  apply list_elem_of_fmap in Hv as ([i node] & -> & Hin).
  apply elem_of_map_to_list in Hin. by apply (Hall i).
Qed.

(** X23: after a run that returns, the list of selfish nodes shown has
    [int(num_nodes * selfish_ratio / 100)] entries, the average power shown
    lies between 65 and 100 and the average trust between 15 and 100, and
    neither average divides by zero. *)
Theorem page_after_run cost_lt c rng :
  1 ≤ num_nodes c →
  0 ≤ int_div100 (num_nodes c * selfish_ratio c) ≤ num_nodes c →
  ∃ o w p t,
    run cost_lt c rng = inr (o, w) ∧
    Z.of_nat (length (selfish_list (nodes w))) =
      int_div100 (num_nodes c * selfish_ratio c) ∧
    average_power (nodes w) (num_nodes c) = Some p ∧
    (inject_Z 65 <= p)%Q ∧ (p <= inject_Z 100)%Q ∧
    average_trust (nodes w) (num_nodes c) = Some t ∧
    (inject_Z 15 <= t)%Q ∧ (t <= inject_Z 100)%Q.
Proof.
  intros Hn Hk.
  destruct (run_facts cost_lt c rng Hn Hk)
    as (o & w & Hrun & _ & _ & _ & Hsize & Hcount & Hrange & _).
  assert (Hsz : Z.of_nat (size (nodes w)) = num_nodes c) by (rewrite Hsize; lia).
  destruct (average_bounds (total ((λ kv, power kv.2) <$> map_to_list (nodes w)))
              (num_nodes c) 65 100) as (p & Hp & Hp1 & Hp2); [lia | |].
  { rewrite <- Hsz. apply (field_total_bounds power).
    intros i node Hnode. by apply (Hrange i node Hnode). }
  destruct (average_bounds (total ((λ kv, trust kv.2) <$> map_to_list (nodes w)))
              (num_nodes c) 15 100) as (t & Ht & Ht1 & Ht2); [lia | |].
  { rewrite <- Hsz. apply (field_total_bounds trust).
    intros i node Hnode. by apply (Hrange i node Hnode). }
  exists o, w, p, t. split; [done|]. split; [|done].
  by rewrite selfish_list_length.
Qed.

Lemma page_after_run_witness :
  ∃ o w p t,
    run fixed_cost_lt (mkConfig 5 150 40 true true false) (random fresh) = inr (o, w) ∧
    Z.of_nat (length (selfish_list (nodes w))) = int_div100 (5 * 40) ∧
    average_power (nodes w) 5 = Some p ∧
    (inject_Z 65 <= p)%Q ∧ (p <= inject_Z 100)%Q ∧
    average_trust (nodes w) 5 = Some t ∧
    (inject_Z 15 <= t)%Q ∧ (t <= inject_Z 100)%Q.
Proof.
  apply (page_after_run fixed_cost_lt (mkConfig 5 150 40 true true false)
           (random fresh)); [simpl; lia | vm_compute; split; discriminate].
Defined.

(** ** A packet to oneself *)

(** X24: a packet from a node with a link to itself takes the route of that
    one node and is treated like any hop: a selfish sender whose roll is
    below [0.6] drops its own packet and loses 5 trust; otherwise the packet
    is "Delivered" and the sender loses 1 to 5 power. *)
Theorem send_packet_to_self cost_lt u v w n :
  adjacent (G w) u v → nodes w !! u = Some n →
  ∃ s w', send_packet cost_lt u u w = inr ((Some [u], s), w') ∧
          ((s = "Dropped by selfish node"%string ∧ selfish n = true ∧
            rolls_drop w = true ∧
            nodes w' = <[u := set_trust (trust n - 5) n]> (nodes w)) ∨
           (s = "Delivered"%string ∧
            (selfish n = true → rolls_drop w = false) ∧
            ∃ d, 1 ≤ d ≤ 5 ∧
                 nodes w' = <[u := set_power (power n - d) n]> (nodes w))).
Proof.
  intros Hadj Hn.
  assert (Hr : find_route cost_lt u u w = inr (Some [u], w)).
  { rewrite find_route_run, shortest_path_self; [done|]. by eapply adjacent_dom_l. }
  rewrite (send_packet_route _ _ _ _ _ Hr), walk_cons_run.
  destruct (selfish n) eqn:Hs; [destruct (rolls_drop w) eqn:Hroll|].
  - rewrite (visit_drop u w n Hn Hs Hroll). eexists _, _. split; [done|].
    left. done.
  - rewrite (visit_pass u w n Hn Hs Hroll). simpl. eexists _, _. split; [done|].
    right. split; [done|]. split; [done|]. exists (decay w 1).
    split; [apply decay_range | done].
  - rewrite (visit_honest u w n Hn Hs). simpl. eexists _, _. split; [done|].
    right. split; [done|]. split; [done|]. exists (decay w 0).
    split; [apply decay_range | done].
Qed.

Lemma send_packet_to_self_witness :
  ∃ s w', send_packet fixed_cost_lt 1 1 line_start = inr ((Some [1], s), w') ∧
          ((s = "Dropped by selfish node"%string ∧ true = true ∧
            rolls_drop line_start = true ∧
            nodes w' = <[1 := mkNode 100 0 80 35 true]> (nodes line_start)) ∨
           (s = "Delivered"%string ∧
            (true = true → rolls_drop line_start = false) ∧
            ∃ d, 1 ≤ d ≤ 5 ∧
                 nodes w' = <[1 := set_power (80 - d) (mkNode 100 0 80 40 true)]>
                              (nodes line_start))).
Proof.
  apply (send_packet_to_self fixed_cost_lt 1 0 line_start (mkNode 100 0 80 40 true));
    [vm_compute; eauto | reflexivity].
Defined.
